(** * NFS subdir external provisioner: provisioning and deletion logic

    A shallow embedding of [cmd/nfs-subdir-external-provisioner/provisioner.go]
    and of the parts of the Go standard library it calls ([strings],
    [path/filepath] on Unix, [strconv.ParseBool], the one regular expression
    [pattern], and the [os] calls, the latter behind an interface).

    Go strings are byte sequences: they are modelled as [list ascii]. *)

From Stdlib Require Import Ascii String List Arith Lia Bool NArith.
From stdpp Require Import gmap strings list.

Set Default Proof Using "Type".

Abbreviation gostring := (list ascii).

(** String literals are read as byte lists where a [gostring] is expected. *)
Coercion list_ascii_of_string : string >-> list.

(** ** Package [strings] *)

Module strings.

(** [strings.HasPrefix(s, prefix)]. *)
Fixpoint HasPrefix (s pre : gostring) : bool :=
  match pre, s with
  | [], _ => true
  | _ :: _, [] => false
  | p :: pre', c :: s' => Ascii.eqb p c && HasPrefix s' pre'
  end.

(** [strings.Contains(s, substr)]. *)
Fixpoint Contains (s sub : gostring) : bool :=
  HasPrefix s sub ||
  match s with
  | [] => false
  | _ :: s' => Contains s' sub
  end.

(** [strings.Join(elems, sep)]. *)
Fixpoint Join (elems : list gostring) (sep : gostring) : gostring :=
  match elems with
  | [] => []
  | [e] => e
  | e :: rest => e ++ sep ++ Join rest sep
  end.

(** [strings.Split(s, sep)] for a one-byte separator. *)
Fixpoint Split (s : gostring) (sep : ascii) : list gostring :=
  match s with
  | [] => [[]]
  | c :: s' =>
      if Ascii.eqb c sep then [] :: Split s' sep
      else match Split s' sep with
           | seg :: rest => (c :: seg) :: rest
           | [] => [[c]]
           end
  end.

(** [strings.Replace(s, old, new, 1)]: the first occurrence of [old],
    searched from the left, is replaced; an empty [old] matches at the
    beginning of the string. *)
Fixpoint Replace1 (s old new : gostring) : gostring :=
  if HasPrefix s old then new ++ drop (length old) s
  else match s with
       | [] => []
       | c :: s' => c :: Replace1 s' old new
       end.

(** [strings.ReplaceAll(s, old, new)] for a non-empty [old]: the
    non-overlapping occurrences of [old] are replaced from left to right.
    [skip] counts the bytes of an occurrence still to be passed over.
    (For an empty [old] Go inserts [new] around every UTF-8 sequence; the
    program never does that, see [FindAll_nonempty] below, and the model
    leaves [s] unchanged there.) *)
Fixpoint replaceFrom (skip : nat) (s old new : gostring) : gostring :=
  match s with
  | [] => []
  | c :: s' =>
      match skip with
      | S k => replaceFrom k s' old new
      | O =>
          if HasPrefix s old
          then new ++ replaceFrom (length old - 1) s' old new
          else c :: replaceFrom 0 s' old new
      end
  end.

Definition ReplaceAll (s old new : gostring) : gostring :=
  match old with
  | [] => s
  | _ => replaceFrom 0 s old new
  end.

End strings.

(** ** Package [path/filepath] (Unix: the separator is [/], no volume names) *)

Module filepath.

Definition Separator : ascii := "/".

Definition dot : gostring := ".".
Definition dotdot : gostring := "..".

(** One element of the path meets the elements kept so far ([stack], the
    last kept element first). Empty elements and [.] are dropped; [..]
    removes the element before it, is dropped at the root of a rooted path,
    and is kept at the start of a relative one. *)
Definition cleanStep (rooted : bool) (stack : list gostring) (elem : gostring)
  : list gostring :=
  if decide (elem = []) then stack
  else if decide (elem = dot) then stack
  else if decide (elem = dotdot) then
    match stack with
    | top :: below => if decide (top = dotdot) then elem :: stack else below
    | [] => if rooted then [] else [elem]
    end
  else elem :: stack.

(** The elements of the shortest equivalent path, first element first. *)
Definition cleanElems (rooted : bool) (path : gostring) : list gostring :=
  rev (fold_left (cleanStep rooted) (strings.Split path Separator) []).

Definition IsAbs (path : gostring) : bool :=
  match path with
  | c :: _ => Ascii.eqb c Separator
  | [] => false
  end.

(** [filepath.Clean]: the shortest path name equivalent to [path] by purely
    lexical processing. The empty path and an empty relative result are [.]. *)
Definition Clean (path : gostring) : gostring :=
  match path with
  | [] => dot
  | _ =>
      let elems := cleanElems (IsAbs path) path in
      if IsAbs path then Separator :: strings.Join elems [Separator]
      else match elems with
           | [] => dot
           | _ => strings.Join elems [Separator]
           end
  end.

(** The bytes after the last separator are dropped from the reversed path. *)
Fixpoint dropElem (rpath : gostring) : gostring :=
  match rpath with
  | [] => []
  | c :: r => if Ascii.eqb c Separator then rpath else dropElem r
  end.

Fixpoint takeElem (rpath : gostring) : gostring :=
  match rpath with
  | [] => []
  | c :: r => if Ascii.eqb c Separator then [] else c :: takeElem r
  end.

Fixpoint dropSeparators (rpath : gostring) : gostring :=
  match rpath with
  | [] => []
  | c :: r => if Ascii.eqb c Separator then dropSeparators r else rpath
  end.

(** The path up to and including its last separator, and what follows it. *)
Definition dirPrefix (path : gostring) : gostring := rev (dropElem (rev path)).
Definition lastElem (path : gostring) : gostring := rev (takeElem (rev path)).

(** [filepath.Dir]: all but the last element of [path], cleaned. The scan
    from the end of the path stops at the last separator, which is kept. *)
Definition Dir (path : gostring) : gostring := Clean (dirPrefix path).

(** [filepath.Base]: the last element of [path]; trailing separators are
    removed first; [.] for the empty path, [/] for a path of separators. *)
Definition Base (path : gostring) : gostring :=
  match path with
  | [] => dot
  | _ =>
      match lastElem (rev (dropSeparators (rev path))) with
      | [] => [Separator]
      | elem => elem
      end
  end.

(** [filepath.Join]: the elements from the first non-empty one on are joined
    with separators and the result is cleaned; no non-empty element gives
    the empty string. *)
Fixpoint Join (elem : list gostring) : gostring :=
  match elem with
  | [] => []
  | e :: rest =>
      if decide (e = []) then Join rest
      else Clean (strings.Join elem [Separator])
  end.

End filepath.

(** ** The regular expression [pattern]

    [regexp.MustCompile(`\${\.PVC\.((labels|annotations)\.(.*?)|.*?)}`)]:
    the literal opener, then either a map name, a dot and a key, or just a
    key, then a closing brace. Both keys are lazy repetitions of [.], which
    matches every byte except the newline, so a match at a position ends at
    the first closing brace after the opener, and there is none when a
    newline comes before that brace. The first alternative is preferred. *)

Module pattern.

(** One row of [FindAllStringSubmatch]: the match and the three groups; a
    group that did not take part is the empty string. *)
Record submatch := Submatch {
  group0 : gostring;
  group1 : gostring;
  group2 : gostring;
  group3 : gostring;
}.

Definition opener : gostring := "${.PVC.".
Definition closer : ascii := "}".
Definition newline : ascii := "010".

(** The bytes matched by the lazy [.*?] before the closing brace. *)
Fixpoint lazyKey (s : gostring) : option gostring :=
  match s with
  | [] => None
  | c :: s' =>
      if Ascii.eqb c closer then Some []
      else if Ascii.eqb c newline then None
      else match lazyKey s' with
           | Some key => Some (c :: key)
           | None => None
           end
  end.

Definition groups (key : gostring) : submatch :=
  let whole := opener ++ key ++ [closer] in
  if strings.HasPrefix key "labels." then
    Submatch whole key "labels" (drop 7 key)
  else if strings.HasPrefix key "annotations." then
    Submatch whole key "annotations" (drop 12 key)
  else Submatch whole key [] [].

(** The match that starts at the first byte of [s], if any. *)
Definition matchHere (s : gostring) : option submatch :=
  if strings.HasPrefix s opener then
    match lazyKey (drop (length opener) s) with
    | Some key => Some (groups key)
    | None => None
    end
  else None.

(** The successive non-overlapping matches, leftmost first. *)
Fixpoint findFrom (skip : nat) (s : gostring) : list submatch :=
  match s with
  | [] => []
  | _ :: s' =>
      match skip with
      | S k => findFrom k s'
      | O =>
          match matchHere s with
          | Some r => r :: findFrom (length (group0 r) - 1) s'
          | None => findFrom 0 s'
          end
      end
  end.

Definition FindAllStringSubmatch (s : gostring) : list submatch := findFrom 0 s.

End pattern.

(** ** [strconv.ParseBool], [time.Time.Format], errors *)

Inductive Errno :=
  ENOENT | EEXIST | ENOTDIR | ENOTEMPTY | EPERM | EACCES | EBUSY | EINVAL | EIO.

Global Instance Errno_eq_dec : EqDecision Errno.
Proof. solve_decision. Defined.

(** The values of Go's [error] interface that the program meets. A nil
    error is [None] of [option error]. *)
Inductive error :=
| errorString (msg : gostring)
| PathError (op path : gostring) (errno : Errno)
| NumError (func num : gostring)
| StatusError (msg : gostring).

Global Instance error_eq_dec : EqDecision error.
Proof. solve_decision. Defined.

Definition Errno_Error (e : Errno) : gostring :=
  match e with
  | ENOENT => "no such file or directory"
  | EEXIST => "file exists"
  | ENOTDIR => "not a directory"
  | ENOTEMPTY => "directory not empty"
  | EPERM => "operation not permitted"
  | EACCES => "permission denied"
  | EBUSY => "device or resource busy"
  | EINVAL => "invalid argument"
  | EIO => "input/output error"
  end.

(** [err.Error()]. *)
Definition Error (e : error) : gostring :=
  match e with
  | errorString msg => msg
  | PathError op path errno =>
      op ++ (" " : gostring) ++ path ++ (": " : gostring) ++ Errno_Error errno
  | NumError func num =>
      ("strconv." : gostring) ++ func ++ (": parsing " : gostring) ++ num
      ++ (": invalid syntax" : gostring)
  | StatusError msg => msg
  end.

Module strconv.

(** [strconv.ParseBool]: the accepted spellings, a syntax error otherwise. *)
Definition ParseBool (str : gostring) : bool * option error :=
  if bool_decide (str ∈ ["1" : gostring; "t" : gostring; "T" : gostring;
                         "true" : gostring; "TRUE" : gostring; "True" : gostring])
  then (true, None)
  else if bool_decide (str ∈ ["0" : gostring; "f" : gostring; "F" : gostring;
                              "false" : gostring; "FALSE" : gostring; "False" : gostring])
  then (false, None)
  else (false, Some (NumError "ParseBool" str)).

End strconv.

(** The fields of a [time.Time] that the layout [200601021504] prints. *)
Record Time := {
  Year : N;
  Month : N;
  Day : N;
  Hour : N;
  Minute : N;
}.

Definition digit (n : N) : ascii := ascii_of_N (48 + n mod 10).

Definition pad2 (n : N) : gostring := [digit (n / 10); digit n].

Definition pad4 (n : N) : gostring :=
  [digit (n / 1000); digit (n / 100); digit (n / 10); digit n].

(** [t.Format("200601021504")] for a year of at most four digits. *)
Definition Format200601021504 (t : Time) : gostring :=
  pad4 (Year t) ++ pad2 (Month t) ++ pad2 (Day t) ++ pad2 (Hour t) ++ pad2 (Minute t).

(** ** Kubernetes objects (the fields the program reads or writes) *)

Abbreviation stringMap := (gmap gostring gostring).

(** Indexing a Go map: the zero value for a missing key (also on a nil map). *)
Definition index (m : stringMap) (key : gostring) : gostring :=
  default [] (m !! key).

Record LabelSelector := {
  MatchLabels : stringMap;
}.

Record PersistentVolumeClaim := {
  Namespace : gostring;
  Name : gostring;
  Labels : stringMap;
  Annotations : stringMap;
  Selector : option LabelSelector;
  ClaimAccessModes : list gostring;
  Requests : stringMap;
}.

Record StorageClass := {
  Parameters : stringMap;
  ReclaimPolicy : option gostring;
  ClassMountOptions : list gostring;
}.

Record ProvisionOptions := {
  OptStorageClass : StorageClass;
  PVName : gostring;
  PVC : PersistentVolumeClaim;
}.

Record NFSVolumeSource := {
  Server : gostring;
  Path : gostring;
  ReadOnly : bool;
}.

Record PersistentVolume := {
  VolumeName : gostring;
  VolumeAnnotations : stringMap;
  PersistentVolumeReclaimPolicy : gostring;
  AccessModes : list gostring;
  MountOptions : list gostring;
  Capacity : stringMap;
  NFS : option NFSVolumeSource;
  StorageClassName : gostring;
}.

Definition ResourceStorage : gostring := "storage".
Definition BetaStorageClassAnnotation : gostring := "volume.beta.kubernetes.io/storage-class".

(** [storagehelpers.GetPersistentVolumeClass]: the beta annotation first. *)
Definition GetPersistentVolumeClass (volume : PersistentVolume) : gostring :=
  match VolumeAnnotations volume !! BetaStorageClassAnnotation with
  | Some class => class
  | None => StorageClassName volume
  end.

(** [controller.ProvisioningState] is a string type with four constants. *)
Abbreviation ProvisioningState := gostring (only parsing).
Definition ProvisioningFinished : ProvisioningState := "Finished".
Definition ProvisioningInBackground : ProvisioningState := "Background".
Definition ProvisioningNoChange : ProvisioningState := "NoChange".
Definition ProvisioningReschedule : ProvisioningState := "Reschedule".

(** The client: [StorageV1().StorageClasses().Get(ctx, name, ...)]. *)
Definition Clientset := gostring → error + StorageClass.

Record nfsProvisioner := {
  client : option Clientset;
  server : gostring;
  path : gostring;
}.

Record pvcMetadata := {
  data : stringMap;
  labels : stringMap;
  annotations : stringMap;
}.

(** ** The path templater *)

Definition stringParser (meta : pvcMetadata) (str : gostring) : gostring :=
  let result := pattern.FindAllStringSubmatch str in
  fold_left
    (λ str r,
       if decide (pattern.group2 r = ("labels" : gostring)) then
         strings.ReplaceAll str (pattern.group0 r) (index (labels meta) (pattern.group3 r))
       else if decide (pattern.group2 r = ("annotations" : gostring)) then
         strings.ReplaceAll str (pattern.group0 r) (index (annotations meta) (pattern.group3 r))
       else
         strings.ReplaceAll str (pattern.group0 r) (index (data meta) (pattern.group1 r)))
    result str.

Definition mountPath : gostring := "/persistentvolumes/".
Definition archiveSubPath : gostring := "_archived_".

(** ** The operating system

    The [os] calls and the clock, as functions of a state of the world [W].
    [os.Stat] only reads. Nothing is assumed about when a call fails. *)

Abbreviation FileMode := N (only parsing).

(** The octal literals [0o777] and [0755]. *)
Definition mode0777 : FileMode := 511.
Definition mode0755 : FileMode := 493.

Class OS (W : Type) := {
  os_Stat : gostring → W → option error;
  os_MkdirAll : gostring → FileMode → W → option error * W;
  os_Chmod : gostring → FileMode → W → option error * W;
  os_Remove : gostring → W → option error * W;
  os_RemoveAll : gostring → W → option error * W;
  os_Rename : gostring → gostring → W → option error * W;
  time_Now : W → Time;
}.

(** [os.IsNotExist(err)]. *)
Definition IsNotExist (err : option error) : bool :=
  match err with
  | Some (PathError _ _ ENOENT) => true
  | _ => false
  end.

(** The calls the program makes, with their results, oldest first. *)
Inductive Call :=
| CallStat (name : gostring) (err : option error)
| CallMkdirAll (name : gostring) (perm : FileMode) (err : option error)
| CallChmod (name : gostring) (perm : FileMode) (err : option error)
| CallRemove (name : gostring) (err : option error)
| CallRemoveAll (name : gostring) (err : option error)
| CallRename (oldpath newpath : gostring) (err : option error).

Global Instance Call_eq_dec : EqDecision Call.
Proof. solve_decision. Defined.

(** How a Go function ends: it returns, it panics (a nil pointer is
    dereferenced), or the recursion did not end within the fuel given. *)
Inductive Result (A : Type) :=
| Returns (a : A)
| Panics
| OutOfFuel.
Arguments Returns {A} a.
Arguments Panics {A}.
Arguments OutOfFuel {A}.

Section Program.

Context {W : Type} `{!OS W}.

Record State := {
  world : W;
  calls : list Call;
}.

Definition M (A : Type) : Type := State → Result A * State.

Definition ret {A} (a : A) : M A := λ st, (Returns a, st).

Definition bind {A B} (m : M A) (f : A → M B) : M B :=
  λ st,
    match m st with
    | (Returns a, st') => f a st'
    | (Panics, st') => (Panics, st')
    | (OutOfFuel, st') => (OutOfFuel, st')
    end.

Definition panic {A} : M A := λ st, (Panics, st).
Definition outOfFuel {A} : M A := λ st, (OutOfFuel, st).

Definition record (result : option error * W) (call : option error → Call)
    (st : State) : Result (option error) * State :=
  (Returns result.1, {| world := result.2; calls := calls st ++ [call result.1] |}).

Definition Stat (name : gostring) : M (option error) :=
  λ st, record (os_Stat name (world st), world st) (CallStat name) st.
Definition MkdirAll (name : gostring) (perm : FileMode) : M (option error) :=
  λ st, record (os_MkdirAll name perm (world st)) (CallMkdirAll name perm) st.
Definition Chmod (name : gostring) (perm : FileMode) : M (option error) :=
  λ st, record (os_Chmod name perm (world st)) (CallChmod name perm) st.
Definition Remove (name : gostring) : M (option error) :=
  λ st, record (os_Remove name (world st)) (CallRemove name) st.
Definition RemoveAll (name : gostring) : M (option error) :=
  λ st, record (os_RemoveAll name (world st)) (CallRemoveAll name) st.
Definition Rename (oldpath newpath : gostring) : M (option error) :=
  λ st, record (os_Rename oldpath newpath (world st)) (CallRename oldpath newpath) st.
Definition Now : M Time := λ st, (Returns (time_Now (world st)), st).

End Program.

Arguments State W : clear implicits.
Arguments M W A : clear implicits.

Notation "'let*' x ':=' m 'in' k" := (bind m (λ x, k))
  (at level 10, x name, m at level 100, k at level 200, only parsing).

(** ** The provisioner *)

Section Provisioner.

Context {W : Type} `{!OS W}.

(** The [metadata] that [Provision] builds from the request. *)
Definition metadataOf (options : ProvisionOptions) : pvcMetadata := {|
  data := {[ ("name" : gostring) := Name (PVC options);
             ("namespace" : gostring) := Namespace (PVC options);
             ("pvname" : gostring) := PVName options ]};
  labels := Labels (PVC options);
  annotations := Annotations (PVC options);
|}.

Definition Provision (p : nfsProvisioner) (options : ProvisionOptions)
  : M W (option PersistentVolume * ProvisioningState * option error) :=
  match Selector (PVC options) with
  | Some _ =>
      ret (None, ProvisioningFinished, Some (errorString "claim Selector is not supported"))
  | None =>
      let pvcNamespace := Namespace (PVC options) in
      let pvcName := Name (PVC options) in
      let pvName := strings.Join [pvcNamespace; pvcName; PVName options] "-" in
      let metadata := metadataOf options in
      let fullPath := filepath.Join [mountPath; pvName] in
      let path_ := filepath.Join [path p; pvName] in
      let '(fullPath, path_) :=
        match Parameters (OptStorageClass options) !! ("pathPattern" : gostring) with
        | Some pathPattern =>
            let customPath := stringParser metadata pathPattern in
            if decide (customPath ≠ [])
            then (filepath.Join [mountPath; customPath], filepath.Join [path p; customPath])
            else (fullPath, path_)
        | None => (fullPath, path_)
        end in
      let* err := MkdirAll fullPath mode0777 in
      match err with
      | Some err =>
          ret (None, ProvisioningFinished,
               Some (errorString (("unable to create directory to provision new pv: " : gostring)
                                  ++ Error err)))
      | None =>
          let* err := Chmod fullPath mode0777 in
          match err with
          | Some err => ret (None, [], Some err)
          | None =>
              match ReclaimPolicy (OptStorageClass options) with
              | None => panic
              | Some reclaimPolicy =>
                  let pv := {|
                    VolumeName := PVName options;
                    VolumeAnnotations := ∅;
                    PersistentVolumeReclaimPolicy := reclaimPolicy;
                    AccessModes := ClaimAccessModes (PVC options);
                    MountOptions := ClassMountOptions (OptStorageClass options);
                    Capacity := {[ ResourceStorage := index (Requests (PVC options)) ResourceStorage ]};
                    NFS := Some {| Server := server p; Path := path_; ReadOnly := false |};
                    StorageClassName := [] |} in
                  ret (Some pv, ProvisioningFinished, None)
              end
          end
      end
  end.

(** The recursion of [pruneEmptyParents] and of [buildArchivePath] is on
    [filepath.Dir path], which need not be smaller: [fuel] bounds its depth. *)
Fixpoint pruneEmptyParents (fuel : nat) (path : gostring) : M W unit :=
  match fuel with
  | O => outOfFuel
  | S fuel =>
      if decide (filepath.Clean path = filepath.Clean mountPath) then ret tt
      else
        let* err := Remove path in
        match err with
        | None => pruneEmptyParents fuel (filepath.Dir path)
        | Some _ => ret tt
        end
  end.

Definition deleteAndPruneEmptyParents (fuel : nat) (path : gostring)
  : M W (option error) :=
  let* err := RemoveAll path in
  match err with
  | Some err => ret (Some err)
  | None =>
      let* _ := pruneEmptyParents fuel (filepath.Dir path) in
      ret None
  end.

Fixpoint buildArchivePath (fuel : nat) (path : gostring) : M W gostring :=
  match fuel with
  | O => outOfFuel
  | S fuel =>
      if decide (filepath.Clean path = filepath.Clean mountPath) then
        let* now := Now in
        ret (archiveSubPath ++ ("/" : gostring) ++ Format200601021504 now)
      else
        let* parent := buildArchivePath fuel (filepath.Dir path) in
        ret (parent ++ ("." : gostring) ++ filepath.Base path)
  end.

(** [getClassForVolume] returns the StorageClass of the volume. *)
Definition getClassForVolume (p : nfsProvisioner) (pv : PersistentVolume)
  : error + StorageClass :=
  match client p with
  | None => inl (errorString "cannot get kube client")
  | Some clientset =>
      let className := GetPersistentVolumeClass pv in
      if decide (className = []) then inl (errorString "volume has no storage class")
      else clientset className
  end.

(** The last part of [Delete] (from the computation of [archivePath] to
    the final [return err]), reached when the directory is to be archived. *)
Definition archive (fuel : nat) (oldPath : gostring) : M W (option error) :=
  let* archived := buildArchivePath fuel oldPath in
  let archivePath := filepath.Join [mountPath; archived] in
  let* err := Stat (filepath.Join [mountPath; archiveSubPath]) in
  let* _ := (if IsNotExist err
             then MkdirAll (filepath.Join [mountPath; archiveSubPath]) mode0755
             else ret None) in
  let* err := Rename oldPath archivePath in
  match err with
  | None =>
      let* _ := pruneEmptyParents fuel (filepath.Dir oldPath) in
      ret None
  | Some err => ret (Some err)
  end.

Definition Delete (fuel : nat) (p : nfsProvisioner) (volume : PersistentVolume)
  : M W (option error) :=
  match NFS volume with
  | None => panic
  | Some nfs =>
      let path_ := Path nfs in
      let oldPath := strings.Replace1 path_ (path p) mountPath in
      let* err := Stat oldPath in
      if IsNotExist err then ret None
      else
        match getClassForVolume p volume with
        | inl err => ret (Some err)
        | inr storageClass =>
            let onDelete := index (Parameters storageClass) "onDelete" in
            if decide (onDelete = ("delete" : gostring)) then
              deleteAndPruneEmptyParents fuel oldPath
            else if decide (onDelete = ("retain" : gostring)) then ret None
            else
              match Parameters storageClass !! ("archiveOnDelete" : gostring) with
              | Some archiveOnDelete =>
                  match strconv.ParseBool archiveOnDelete with
                  | (_, Some err) => ret (Some err)
                  | (false, None) => deleteAndPruneEmptyParents fuel oldPath
                  | (true, None) => archive fuel oldPath
                  end
              | None => archive fuel oldPath
              end
        end
  end.

End Provisioner.

(** ** A file system in memory

    An instance of the interface: a tree of directories and regular files
    under [/], each entry stored under the list of its path elements. Paths
    are resolved lexically (no symbolic links; the working directory is the
    root). [owned] tells whether the process may change the entry's mode. *)

Module MemFS.

Inductive Kind := Directory | RegularFile.

Global Instance Kind_eq_dec : EqDecision Kind.
Proof. solve_decision. Defined.

Record Node := {
  kind : Kind;
  perm : FileMode;
  owned : bool;
}.

Abbreviation Key := (list gostring).

Record World := {
  nodes : gmap Key Node;
  clock : Time;
}.

Definition resolve (name : gostring) : Key := filepath.cleanElems true name.

Definition rootNode : Node := {| kind := Directory; perm := mode0755; owned := false |}.

Definition getNode (m : gmap Key Node) (key : Key) : option Node :=
  match key with
  | [] => Some rootNode
  | _ => m !! key
  end.

(** The entries strictly below [key]. *)
Definition below (m : gmap Key Node) (key : Key) : gmap Key Node :=
  filter (λ kn, key `prefix_of` kn.1 ∧ kn.1 ≠ key) m.

Definition hasEntries (m : gmap Key Node) (key : Key) : bool :=
  bool_decide (below m key ≠ ∅).

(** Some directory on the way to [key] is a regular file. *)
Fixpoint fileAbove (m : gmap Key Node) (done todo : Key) : bool :=
  match todo with
  | [] => false
  | e :: todo' =>
      match getNode m done with
      | Some {| kind := RegularFile |} => true
      | _ => fileAbove m (done ++ [e]) todo'
      end
  end.

Definition missing (m : gmap Key Node) (key : Key) : Errno :=
  if fileAbove m [] key then ENOTDIR else ENOENT.

Definition Stat (name : gostring) (w : World) : option error :=
  if decide (name = []) then Some (PathError "stat" name ENOENT)
  else match getNode (nodes w) (resolve name) with
       | Some _ => None
       | None => Some (PathError "stat" name (missing (nodes w) (resolve name)))
       end.

Fixpoint mkdirAll (perm : FileMode) (done todo : Key) (m : gmap Key Node)
  : option Errno * gmap Key Node :=
  match todo with
  | [] => (None, m)
  | e :: todo' =>
      let key := done ++ [e] in
      match m !! key with
      | Some {| kind := Directory |} => mkdirAll perm key todo' m
      | Some {| kind := RegularFile |} => (Some ENOTDIR, m)
      | None =>
          mkdirAll perm key todo'
            (<[key := {| kind := Directory; perm := perm; owned := true |}]> m)
      end
  end.

Definition setNodes (w : World) (m : gmap Key Node) : World :=
  {| nodes := m; clock := clock w |}.

Definition MkdirAll (name : gostring) (perm : FileMode) (w : World)
  : option error * World :=
  if decide (name = []) then (Some (PathError "mkdir" name ENOENT), w)
  else match mkdirAll perm [] (resolve name) (nodes w) with
       | (None, m) => (None, setNodes w m)
       | (Some errno, m) => (Some (PathError "mkdir" name errno), setNodes w m)
       end.

Definition Chmod (name : gostring) (perm : FileMode) (w : World)
  : option error * World :=
  if decide (name = []) then (Some (PathError "chmod" name ENOENT), w)
  else match getNode (nodes w) (resolve name) with
       | None => (Some (PathError "chmod" name (missing (nodes w) (resolve name))), w)
       | Some node =>
           if owned node then
             (None, setNodes w (<[resolve name :=
                                   {| kind := kind node; perm := perm; owned := true |}]>
                                (nodes w)))
           else (Some (PathError "chmod" name EPERM), w)
       end.

(** [os.Remove]: a file or an empty directory. *)
Definition Remove (name : gostring) (w : World) : option error * World :=
  if decide (name = []) then (Some (PathError "remove" name ENOENT), w)
  else match resolve name with
       | [] => (Some (PathError "remove" name EBUSY), w)
       | key =>
           match nodes w !! key with
           | None => (Some (PathError "remove" name (missing (nodes w) key)), w)
           | Some node =>
               if hasEntries (nodes w) key
               then (Some (PathError "remove" name ENOTEMPTY), w)
               else (None, setNodes w (delete key (nodes w)))
           end
       end.

Definition endsWithDot (name : gostring) : bool :=
  bool_decide (name = filepath.dot) || strings.HasPrefix (rev name) "./".

(** [os.RemoveAll]: the entry and everything below it; no error when there
    is nothing at [name]. *)
Definition RemoveAll (name : gostring) (w : World) : option error * World :=
  if decide (name = []) then (None, w)
  else if endsWithDot name then (Some (PathError "RemoveAll" name EINVAL), w)
  else
    let key := resolve name in
    let m := filter (λ kn, ¬ key `prefix_of` kn.1) (nodes w) in
    match key with
    | [] => (Some (PathError "unlinkat" name EBUSY), setNodes w m)
    | _ =>
        if fileAbove (nodes w) [] key then (Some (PathError "unlinkat" name ENOTDIR), w)
        else (None, setNodes w m)
    end.

(** [os.Rename]: the entry and everything below it move to the new name; the
    new name may be taken by an empty directory or a file of the same kind. *)
Definition Rename (oldpath newpath : gostring) (w : World) : option error * World :=
  let fail errno := (Some (PathError "rename" oldpath errno), w) in
  if decide (oldpath = [] ∨ newpath = []) then fail ENOENT
  else
    let old := resolve oldpath in
    let new := resolve newpath in
    match old, new with
    | [], _ | _, [] => fail EBUSY
    | _, _ =>
        match nodes w !! old, getNode (nodes w) (removelast new) with
        | None, _ => fail (missing (nodes w) old)
        | _, None => fail (missing (nodes w) new)
        | _, Some {| kind := RegularFile |} => fail ENOTDIR
        | Some node, Some {| kind := Directory |} =>
            if decide (old = new) then (None, w)
            else if decide (old `prefix_of` new) then fail EINVAL
            else
              let clash :=
                match nodes w !! new with
                | None => None
                | Some target =>
                    if decide (kind target ≠ kind node) then Some ENOTDIR
                    else if hasEntries (nodes w) new then Some ENOTEMPTY
                    else None
                end in
              match clash with
              | Some errno => fail errno
              | None =>
                  let moved : gmap Key Node :=
                    list_to_map
                      (map (λ kn, (new ++ drop (length old) kn.1, kn.2))
                         (map_to_list (filter (λ kn, old `prefix_of` kn.1) (nodes w)))) in
                  let kept :=
                    filter (λ kn, ¬ old `prefix_of` kn.1 ∧ kn.1 ≠ new) (nodes w) in
                  (None, setNodes w (moved ∪ kept))
              end
        end
    end.

Global Instance MemOS : OS World := {|
  os_Stat := Stat;
  os_MkdirAll := MkdirAll;
  os_Chmod := Chmod;
  os_Remove := Remove;
  os_RemoveAll := RemoveAll;
  os_Rename := Rename;
  time_Now := clock;
|}.

Definition dir (name : gostring) : Key * Node :=
  (resolve name, {| kind := Directory; perm := mode0777; owned := true |}).

Definition start (w : World) : State World := {| world := w; calls := [] |}.

End MemFS.

(** * Notions used in the statements *)

(** A path element that [filepath.Clean] keeps as it is. *)
Definition properName (e : gostring) : bool :=
  bool_decide (e ≠ [] ∧ e ≠ filepath.dot ∧ e ≠ filepath.dotdot ∧ filepath.Separator ∉ e).

Definition mountName : gostring := "persistentvolumes".

(** The absolute path [path] denotes the mount root or something below it. *)
Definition atOrBelowMount (path : gostring) : bool :=
  filepath.IsAbs path
  && bool_decide (head (filepath.cleanElems true path) = Some mountName).

(** The absolute path [path] denotes something strictly below the mount root. *)
Definition belowMount (path : gostring) : bool :=
  atOrBelowMount path && bool_decide (filepath.cleanElems true path ≠ [mountName]).

(** Taking the parent directory again and again arrives at the mount root. *)
Definition reachesMount (path : gostring) : Prop :=
  ∃ n, filepath.Clean (Nat.iter n filepath.Dir path) = filepath.Clean mountPath.


(** The path of the new directory relative to the mount root, as
    [Provision] settles it, and the volume it returns for an exported path. *)
Definition relativePath (options : ProvisionOptions) : gostring :=
  let pvName :=
    strings.Join [Namespace (PVC options); Name (PVC options); PVName options] "-" in
  match Parameters (OptStorageClass options) !! ("pathPattern" : gostring) with
  | Some pathPattern =>
      let customPath := stringParser (metadataOf options) pathPattern in
      if decide (customPath ≠ []) then customPath else pvName
  | None => pvName
  end.

Definition volumeFor (p : nfsProvisioner) (options : ProvisionOptions)
    (reclaimPolicy exported : gostring) : PersistentVolume := {|
  VolumeName := PVName options;
  VolumeAnnotations := ∅;
  PersistentVolumeReclaimPolicy := reclaimPolicy;
  AccessModes := ClaimAccessModes (PVC options);
  MountOptions := ClassMountOptions (OptStorageClass options);
  Capacity := {[ ResourceStorage := index (Requests (PVC options)) ResourceStorage ]};
  NFS := Some {| Server := server p; Path := exported; ReadOnly := false |};
  StorageClassName := [];
|}.

(** A template as a sequence of literal text and placeholders. *)
Inductive token :=
| Literal (text : gostring)
| Placeholder (key : gostring).

Definition tokenText (t : token) : gostring :=
  match t with
  | Literal text => text
  | Placeholder key => pattern.opener ++ key ++ [pattern.closer]
  end.

Definition templateOf (tokens : list token) : gostring := concat (map tokenText tokens).

(** Following the specification: the value of a placeholder is the label for
    [labels.<key>], the annotation for [annotations.<key>], the metadata field
    otherwise, and the empty string where there is none. *)
Definition placeholderValue (meta : pvcMetadata) (key : gostring) : gostring :=
  if strings.HasPrefix key "labels." then index (labels meta) (drop 7 key)
  else if strings.HasPrefix key "annotations." then index (annotations meta) (drop 12 key)
  else index (data meta) key.

(** Following the specification: every placeholder is replaced by its value
    in a single pass over the template. *)
Definition renderOnce (meta : pvcMetadata) (tokens : list token) : gostring :=
  concat (map (λ t, match t with
                    | Literal text => text
                    | Placeholder key => placeholderValue meta key
                    end) tokens).

Definition dollar : ascii := "$".

(** The key of a placeholder as the pattern reads it back: no closing brace,
    no newline; and nothing in it opens another placeholder. *)
Definition plainKey (key : gostring) : bool :=
  bool_decide ((pattern.closer ∉ key) ∧ (pattern.newline ∉ key) ∧ (dollar ∉ key)).

Definition plainToken (t : token) : bool :=
  match t with
  | Literal text => bool_decide (dollar ∉ text)
  | Placeholder key => plainKey key
  end.

Definition plainValue (meta : pvcMetadata) (t : token) : bool :=
  match t with
  | Literal _ => true
  | Placeholder key => bool_decide (dollar ∉ placeholderValue meta key)
  end.

(** The tokens of a template after the occurrences of one placeholder, or
    of the placeholders with a key in [keys], are replaced by their values. *)
Definition substToken (key value : gostring) (t : token) : token :=
  match t with
  | Placeholder k => if decide (k = key) then Literal value else t
  | Literal _ => t
  end.

Definition substKeys (meta : pvcMetadata) (keys : list gostring) (t : token) : token :=
  match t with
  | Placeholder k => if decide (k ∈ keys) then Literal (placeholderValue meta k) else t
  | Literal _ => t
  end.

Definition keysOf (tokens : list token) : list gostring :=
  omap (λ t, match t with Placeholder k => Some k | Literal _ => None end) tokens.

(** One turn of the loop of [stringParser]. *)
Definition replaceMatch (meta : pvcMetadata) (str : gostring) (r : pattern.submatch)
  : gostring :=
  if decide (pattern.group2 r = ("labels" : gostring)) then
    strings.ReplaceAll str (pattern.group0 r) (index (labels meta) (pattern.group3 r))
  else if decide (pattern.group2 r = ("annotations" : gostring)) then
    strings.ReplaceAll str (pattern.group0 r) (index (annotations meta) (pattern.group3 r))
  else
    strings.ReplaceAll str (pattern.group0 r) (index (data meta) (pattern.group1 r)).



(** What [Delete] may call once it has checked that [oldPath] exists: the
    removal of [oldPath] with everything below it, the removal of one of
    its ancestors, the check and the creation (mode 0755) of the archive
    directory, and a rename of [oldPath]; never a change of mode. *)
Definition deleteCall (oldPath : gostring) (c : Call) : Prop :=
  match c with
  | CallRemoveAll name _ => name = oldPath
  | CallRemove name _ => ∃ n, name = Nat.iter (S n) filepath.Dir oldPath
  | CallStat name _ => name = filepath.Join [mountPath; archiveSubPath]
  | CallMkdirAll name perm _ =>
      name = filepath.Join [mountPath; archiveSubPath] ∧ perm = mode0755
  | CallRename oldpath _ _ => oldpath = oldPath
  | CallChmod _ _ _ => False
  end.

Section Pruning.

Context {W : Type} `{!OS W}.

(** The state after the existence check of [Delete]. *)
Definition afterStat (oldPath : gostring) (st : State W) : State W :=
  {| world := world st;
     calls := calls st ++ [CallStat oldPath (os_Stat oldPath (world st))] |}.

(** The calls of one pruning walk from [path], between two states of the
    world, and how it ends: removals of [path], of its parent, and so on,
    never of a path whose cleaned form is the mount root, every one but the
    last a success, and the world changed by these removals only. The walk
    returns at the mount root or after the first failure; otherwise it goes
    on until the fuel is used up. *)
Inductive Pruned : W → gostring → list Call → W → Result unit → Prop :=
| Pruned_root w path :
    filepath.Clean path = filepath.Clean mountPath →
    Pruned w path [] w (Returns tt)
| Pruned_cut w path :
    Pruned w path [] w OutOfFuel
| Pruned_failed w path err w' :
    filepath.Clean path ≠ filepath.Clean mountPath →
    os_Remove path w = (Some err, w') →
    Pruned w path [CallRemove path (Some err)] w' (Returns tt)
| Pruned_removed w path w' cs w'' r :
    filepath.Clean path ≠ filepath.Clean mountPath →
    os_Remove path w = (None, w') →
    Pruned w' (filepath.Dir path) cs w'' r →
    Pruned w path (CallRemove path None :: cs) w'' r.

(** [buildArchivePath] comes back with a result. *)
Definition terminates (path : gostring) (st : State W) : Prop :=
  ∃ fuel archived, (buildArchivePath fuel path st).1 = Returns archived.

End Pruning.

(** ** The entry point

    [main] parses the command line, reads its configuration from the
    environment, builds the client and hands the provisioner to the
    controller, whose [Run] never stops. What the process is given: the
    outcome of [flag.Parse] (which ends the process itself on a flag it does
    not know and on [-help]), the environment, the two ways to a client
    configuration and the client constructor. [Config] stands for
    [*rest.Config]. *)

Section Main.

Variable Config : Type.

Record Process := {
  flag_Parse : option Z;
  Getenv : gostring → gostring;
  BuildConfigFromFlags : gostring → gostring → error + Config;
  InClusterConfig : error + Config;
  NewForConfig : Config → error + Clientset;
}.

(** How [main] goes on: the process ends inside [flag.Parse], [os.Exit] is
    called after an error is logged, or the controller runs for the
    provisioner under its name. *)
Inductive Started :=
| ExitsInFlags (code : Z)
| Exits (code : Z) (logged : gostring)
| Runs (provisionerName : gostring) (provisioner : nfsProvisioner).

Definition provisionerNameKey : gostring := "PROVISIONER_NAME".

Definition main (proc : Process) : Started :=
  match flag_Parse proc with
  | Some code => ExitsInFlags code
  | None =>
      let server := Getenv proc "NFS_SERVER" in
      if decide (server = []) then Exits 1 "NFS_SERVER not set"
      else
        let path_ := Getenv proc "NFS_PATH" in
        if decide (path_ = []) then Exits 1 "NFS_PATH not set"
        else
          let provisionerName := Getenv proc provisionerNameKey in
          if decide (provisionerName = []) then
            Exits 1 (("environment variable " : gostring) ++ provisionerNameKey
                     ++ (" is not set! Please set it." : gostring))
          else
            let kubeconfig := Getenv proc "KUBECONFIG" in
            let config :=
              if decide (kubeconfig ≠ []) then
                match BuildConfigFromFlags proc [] kubeconfig with
                | inl _ => inl ("failed to create kubeconfig" : gostring)
                | inr config => inr config
                end
              else
                match InClusterConfig proc with
                | inl _ => inl ("failed to create in cluster config" : gostring)
                | inr config => inr config
                end in
            match config with
            | inl logged => Exits 1 logged
            | inr config =>
                match NewForConfig proc config with
                | inl _ => Exits 1 "failed to create kubernetes client"
                | inr clientset =>
                    let clientNFSProvisioner :=
                      {| client := Some clientset; server := server; path := path_ |} in
                    Runs provisionerName clientNFSProvisioner
                end
            end
  end.

(** The configuration [main] asks for: from the file named by [KUBECONFIG]
    when that is set, from inside the cluster otherwise. *)
Definition configOf (proc : Process) : error + Config :=
  if decide (Getenv proc "KUBECONFIG" ≠ [])
  then BuildConfigFromFlags proc [] (Getenv proc "KUBECONFIG")
  else InClusterConfig proc.

End Main.

Arguments flag_Parse {Config} _.
Arguments Getenv {Config} _ _.
Arguments BuildConfigFromFlags {Config} _ _ _.
Arguments InClusterConfig {Config} _.
Arguments NewForConfig {Config} _ _.
Arguments main {Config} proc.
Arguments configOf {Config} proc.

(** Sample worlds and requests. *)

Module Examples.

Import MemFS.

Definition may2024 : Time :=
  {| Year := 2024; Month := 5; Day := 1; Hour := 10; Minute := 30 |}.

(** An export with nothing provisioned yet. *)
Definition emptyExport : World :=
  {| nodes := list_to_map [dir "/persistentvolumes"]; clock := may2024 |}.

Definition claim1 : PersistentVolumeClaim := {|
  Namespace := "ns1";
  Name := "claim1";
  Labels := {[ ("team" : gostring) := ("infra" : gostring) ]};
  Annotations := ∅;
  Selector := None;
  ClaimAccessModes := [ "ReadWriteMany" : gostring ];
  Requests := {[ ResourceStorage := ("1Gi" : gostring) ]};
|}.

Definition classWith (parameters : stringMap) : StorageClass := {|
  Parameters := parameters;
  ReclaimPolicy := Some ("Delete" : gostring);
  ClassMountOptions := [];
|}.

Definition request (parameters : stringMap) : ProvisionOptions := {|
  OptStorageClass := classWith parameters;
  PVName := "pvc-abc";
  PVC := claim1;
|}.

Definition provisionerWith (parameters : stringMap) : nfsProvisioner := {|
  client := Some (λ _, inr (classWith parameters));
  server := "10.0.0.1";
  path := "/export";
|}.

Definition volumeAt (nfsPath : gostring) : PersistentVolume := {|
  VolumeName := "pvc-abc";
  VolumeAnnotations := ∅;
  PersistentVolumeReclaimPolicy := "Delete";
  AccessModes := [];
  MountOptions := [];
  Capacity := ∅;
  NFS := Some {| Server := "10.0.0.1"; Path := nfsPath; ReadOnly := false |};
  StorageClassName := "nfs-client";
|}.

Definition exportWith (names : list gostring) : World :=
  {| nodes := list_to_map (dir "/persistentvolumes" :: map dir names); clock := may2024 |}.

(** A process started inside the cluster, with its three variables set, and
    one started with an empty environment. *)
Definition process : Process unit := {|
  flag_Parse := None;
  Getenv := λ name,
    if decide (name = ("NFS_SERVER" : gostring)) then ("10.0.0.1" : gostring)
    else if decide (name = ("NFS_PATH" : gostring)) then ("/export" : gostring)
    else if decide (name = provisionerNameKey) then ("example.com/nfs" : gostring)
    else [];
  BuildConfigFromFlags := λ _ _, inl (errorString "no such file");
  InClusterConfig := inr tt;
  NewForConfig := λ _, inr (λ _, inr (classWith ∅));
|}.

Definition bareProcess : Process unit := {|
  flag_Parse := None;
  Getenv := λ _, [];
  BuildConfigFromFlags := λ _ _, inl (errorString "no such file");
  InClusterConfig := inl (errorString "not in a cluster");
  NewForConfig := λ _, inl (errorString "no configuration");
|}.

End Examples.

(** The library functions and the constants stay folded in the proofs. *)
Global Arguments filepath.Clean : simpl never.
Global Arguments filepath.Dir : simpl never.
Global Arguments filepath.Base : simpl never.
Global Arguments filepath.Join : simpl never.
Global Arguments filepath.cleanElems : simpl never.
Global Arguments strings.Replace1 : simpl never.
Global Arguments strings.ReplaceAll : simpl never.
Global Arguments stringParser : simpl never.
Global Arguments Format200601021504 : simpl never.
Global Arguments mountPath : simpl never.
Global Arguments archiveSubPath : simpl never.
Global Arguments mountName : simpl never.

(** * Examples *)

Example Split_ex : strings.Split "/a//b" "/" = [ []; ["a"%char]; []; ["b"%char] ].
Proof. reflexivity. Qed.

Example Replace1_ex :
  strings.Replace1 "/export/a/export" "/export" "/persistentvolumes/"
  = "/persistentvolumes//a/export".
Proof. reflexivity. Qed.

Example ReplaceAll_ex : strings.ReplaceAll "aaa-b-aa" "aa" "x" = "xa-b-x".
Proof. reflexivity. Qed.

Example Clean_ex : filepath.Clean "/persistentvolumes/" = "/persistentvolumes".
Proof. reflexivity. Qed.

Example Clean_dotdot_ex : filepath.Clean "abc/def/../../../ghi/jkl/../../../mno" = "../../mno".
Proof. reflexivity. Qed.

Example Dir_ex : filepath.Dir "/persistentvolumes//ns1-claim1-pvc-abc" = "/persistentvolumes".
Proof. reflexivity. Qed.

Example Base_ex : filepath.Base "/persistentvolumes/a/" = "a".
Proof. reflexivity. Qed.

Example Join_ex : filepath.Join ["/persistentvolumes/" : gostring; "a/b" : gostring] = "/persistentvolumes/a/b".
Proof. reflexivity. Qed.

Example FindAll_ex :
  pattern.FindAllStringSubmatch "${.PVC.labels.team}/${.PVC.name}"
  = [ pattern.Submatch "${.PVC.labels.team}" "labels.team" "labels" "team";
      pattern.Submatch "${.PVC.name}" "name" [] [] ].
Proof. reflexivity. Qed.

Example ParseBool_ex :
  strconv.ParseBool "False" = (false, None)
  ∧ strconv.ParseBool "yes" = (false, Some (NumError "ParseBool" "yes")).
Proof. split; reflexivity. Qed.

Example Format_ex :
  Format200601021504 {| Year := 2024; Month := 5; Day := 1; Hour := 10; Minute := 30 |}
  = "202405011030".
Proof. reflexivity. Qed.

Example Provision_ex :
  let out := Provision (Examples.provisionerWith ∅) (Examples.request ∅)
               (MemFS.start Examples.emptyExport) in
  (∃ pv, out.1 = Returns (Some pv, ProvisioningFinished, None)
         ∧ NFS pv = Some {| Server := "10.0.0.1";
                            Path := "/export/ns1-claim1-pvc-abc";
                            ReadOnly := false |})
  ∧ calls out.2 = [ CallMkdirAll "/persistentvolumes/ns1-claim1-pvc-abc" mode0777 None;
                    CallChmod "/persistentvolumes/ns1-claim1-pvc-abc" mode0777 None ]
  ∧ MemFS.Stat "/persistentvolumes/ns1-claim1-pvc-abc" (world out.2) = None.
Proof. vm_compute. split; [eexists; split; reflexivity | split; reflexivity]. Qed.

Example stringParser_ex :
  stringParser {| data := {[ ("name" : gostring) := ("claim1" : gostring) ]};
                  labels := {[ ("team" : gostring) := ("infra" : gostring) ]};
                  annotations := ∅ |}
    "${.PVC.labels.team}/${.PVC.name}" = "infra/claim1".
Proof. reflexivity. Qed.

Example Delete_archive_ex :
  let w := Examples.exportWith [ "/persistentvolumes/ns1-claim1-pvc-abc" : gostring ] in
  let out := Delete 3 (Examples.provisionerWith {[ ("archiveOnDelete" : gostring) := ("true" : gostring) ]})
               (Examples.volumeAt "/export/ns1-claim1-pvc-abc") (MemFS.start w) in
  out.1 = Returns None
  ∧ last (calls out.2)
    = Some (CallRename "/persistentvolumes//ns1-claim1-pvc-abc"
              "/persistentvolumes/_archived_/202405011030.ns1-claim1-pvc-abc" None)
  ∧ MemFS.Stat "/persistentvolumes/_archived_/202405011030.ns1-claim1-pvc-abc" (world out.2) = None
  ∧ IsNotExist (MemFS.Stat "/persistentvolumes/ns1-claim1-pvc-abc" (world out.2)) = true.
Proof. vm_compute. repeat split. Qed.

Example Delete_onDelete_ex :
  let w := Examples.exportWith [ "/persistentvolumes/team" : gostring;
                                 "/persistentvolumes/team/claim1" : gostring;
                                 "/persistentvolumes/team/claim1/data" : gostring ] in
  let parameters : stringMap :=
    {[ ("onDelete" : gostring) := ("delete" : gostring);
       ("archiveOnDelete" : gostring) := ("true" : gostring) ]} in
  let out := Delete 3 (Examples.provisionerWith parameters)
               (Examples.volumeAt "/export/team/claim1") (MemFS.start w) in
  out.1 = Returns None
  ∧ calls out.2
    = [ CallStat "/persistentvolumes//team/claim1" None;
        CallRemoveAll "/persistentvolumes//team/claim1" None;
        CallRemove "/persistentvolumes/team" None ]
  ∧ MemFS.nodes (world out.2) = list_to_map [ MemFS.dir "/persistentvolumes" ].
Proof. vm_compute. repeat split. Qed.

(** * The provisioning handler: rejected requests and reported outcomes *)

Section ProvisionFacts.

Context {W : Type} `{!OS W}.

(** C3. A request whose claim carries a selector gets no resource, the
    outcome [ProvisioningFinished] and an error, and the state is the one
    the call started in: the world is untouched and no call to the file
    system is made. *)
Theorem Provision_rejects_selector (p : nfsProvisioner) (options : ProvisionOptions)
    (selector : LabelSelector) (st : State W) :
  Selector (PVC options) = Some selector →
  Provision p options st
  = (Returns (None, ProvisioningFinished,
              Some (errorString "claim Selector is not supported")), st).
Proof. intros Hsel. unfold Provision. by rewrite Hsel. Qed.

(** What [Provision] does once the selector check is passed. *)
Lemma Provision_run (p : nfsProvisioner) (options : ProvisionOptions) (st : State W) :
  Selector (PVC options) = None →
  Provision p options st
  = (let* err := MkdirAll (filepath.Join [mountPath; relativePath options]) mode0777 in
     match err with
     | Some err =>
         ret (None, ProvisioningFinished,
              Some (errorString
                      (("unable to create directory to provision new pv: " : gostring)
                       ++ Error err)))
     | None =>
         let* err := Chmod (filepath.Join [mountPath; relativePath options]) mode0777 in
         match err with
         | Some err => ret (None, [], Some err)
         | None =>
             match ReclaimPolicy (OptStorageClass options) with
             | None => panic
             | Some reclaimPolicy =>
                 ret (Some (volumeFor p options reclaimPolicy
                              (filepath.Join [path p; relativePath options])),
                      ProvisioningFinished, None)
             end
         end
     end) st.
Proof.
  intros Hsel. unfold Provision, relativePath. rewrite Hsel.
  destruct (Parameters (OptStorageClass options) !! _) as [pathPattern|];
    [destruct (decide (_ ≠ []))|]; reflexivity.
Qed.

(** C8, where the code departs from the claim. When the directory is created
    and the following [os.Chmod] fails, the outcome returned with the error is
    the empty string, which is none of the states of the controller and in
    particular not [ProvisioningFinished]. *)
Theorem Provision_chmod_failure_outcome (p : nfsProvisioner) (options : ProvisionOptions)
    (st : State W) (result : option PersistentVolume * ProvisioningState * option error) :
  Selector (PVC options) = None →
  (Provision p options st).1 = Returns result →
  (∃ name mode err, last (calls (Provision p options st).2) = Some (CallChmod name mode (Some err))) →
  result.1.2 = [] ∧ result.1.2 ≠ ProvisioningFinished ∧ result.1.1 = None ∧ is_Some result.2.
Proof.
  intros Hsel Hres (name & mode & err & Hlast).
  rewrite (Provision_run p options st Hsel) in Hres, Hlast. revert Hres Hlast.
  unfold bind, MkdirAll, Chmod, record, ret, panic. simpl.
  destruct (os_MkdirAll _ mode0777 (world st)) as [[e1|] w1]; simpl.
  { rewrite last_snoc. intros _ [=]. }
  destruct (os_Chmod _ mode0777 w1) as [[e2|] w2]; simpl.
  { intros [= <-] _. simpl. by eauto. }
  destruct (ReclaimPolicy _); simpl; [|done].
  rewrite last_snoc. intros _ [=].
Qed.

(** In every other case in which [Provision] returns, the outcome is
    [ProvisioningFinished]. *)
Lemma Provision_outcome_otherwise (p : nfsProvisioner) (options : ProvisionOptions)
    (st : State W) (result : option PersistentVolume * ProvisioningState * option error) :
  (Provision p options st).1 = Returns result →
  (∀ name mode err,
     last (calls (Provision p options st).2) ≠ Some (CallChmod name mode (Some err))) →
  result.1.2 = ProvisioningFinished.
Proof.
  intros Hres Hlast.
  destruct (Selector (PVC options)) as [sel|] eqn:Hsel.
  { unfold Provision in Hres. rewrite Hsel in Hres. by injection Hres as <-. }
  rewrite (Provision_run p options st Hsel) in Hres, Hlast. revert Hres Hlast.
  unfold bind, MkdirAll, Chmod, record, ret, panic. simpl.
  destruct (os_MkdirAll _ mode0777 (world st)) as [[e1|] w1]; simpl.
  { by intros [= <-] _. }
  destruct (os_Chmod _ mode0777 w1) as [[e2|] w2]; simpl.
  { intros _ Hlast. exfalso. eapply Hlast. by rewrite last_snoc. }
  destruct (ReclaimPolicy _); simpl; [|done]. by intros [= <-] _.
Qed.

End ProvisionFacts.

(** * Calls made by the recursive helpers *)

(** A call is found in a list of calls written out. *)
Ltac find_call :=
  simpl; solve [ repeat first [ apply list_elem_of_here | apply list_elem_of_further ] ].

Section Walks.

Context {W : Type} `{!OS W}.

Lemma pruneEmptyParents_S (fuel : nat) (path : gostring) :
  pruneEmptyParents (S fuel) path
  = if decide (filepath.Clean path = filepath.Clean mountPath) then ret tt
    else
      let* err := Remove path in
      match err with
      | None => pruneEmptyParents fuel (filepath.Dir path)
      | Some _ => ret tt
      end.
Proof. reflexivity. Qed.

Lemma buildArchivePath_S (fuel : nat) (path : gostring) :
  buildArchivePath (S fuel) path
  = if decide (filepath.Clean path = filepath.Clean mountPath) then
      let* now := Now in
      ret (archiveSubPath ++ ("/" : gostring) ++ Format200601021504 now)
    else
      let* parent := buildArchivePath fuel (filepath.Dir path) in
      ret (parent ++ ("." : gostring) ++ filepath.Base path).
Proof. reflexivity. Qed.

(** Every run of [pruneEmptyParents] is a pruning walk, whatever the fuel. *)
Lemma pruneEmptyParents_Pruned (fuel : nat) (path : gostring) (st : State W) :
  ∃ cs,
    calls (pruneEmptyParents fuel path st).2 = calls st ++ cs
    ∧ Pruned (world st) path cs (world (pruneEmptyParents fuel path st).2)
        (pruneEmptyParents fuel path st).1.
Proof.
  revert path st. induction fuel as [|fuel IH]; intros path st.
  { exists []. simpl. rewrite app_nil_r. split; [done | constructor]. }
  rewrite pruneEmptyParents_S.
  destruct (decide (filepath.Clean path = filepath.Clean mountPath)) as [Hroot|Hroot].
  { exists []. simpl. rewrite app_nil_r. split; [done | by constructor]. }
  unfold bind, Remove, record.
  destruct (os_Remove path (world st)) as [[err|] w'] eqn:Hrm; simpl.
  - exists [CallRemove path (Some err)]. split; [done|]. by apply Pruned_failed.
  - set (st1 := {| world := w'; calls := calls st ++ [CallRemove path None] |}).
    destruct (IH (filepath.Dir path) st1) as (cs & Hcalls & Hwalk).
    exists (CallRemove path None :: cs). split.
    + rewrite Hcalls. simpl. by rewrite <- app_assoc.
    + by eapply Pruned_removed.
Qed.

Lemma Pruned_no_panic (w w' : W) (path : gostring) (cs : list Call) (r : Result unit) :
  Pruned w path cs w' r → r = Returns tt ∨ r = OutOfFuel.
Proof. induction 1; auto. Qed.

(** [buildArchivePath] only reads the clock. *)
Lemma buildArchivePath_state (fuel : nat) (path : gostring) (st : State W) :
  (buildArchivePath fuel path st).2 = st.
Proof.
  revert path. induction fuel as [|fuel IH]; intros path; [done|].
  rewrite buildArchivePath_S.
  destruct (decide _); [done|]. unfold bind.
  specialize (IH (filepath.Dir path)).
  by destruct (buildArchivePath fuel (filepath.Dir path) st) as [[] ?].
Qed.

(** The recursion of [buildArchivePath] ends exactly when the walk through
    the parent directories arrives at the mount root. *)
Lemma terminates_iff_reachesMount (path : gostring) (st : State W) :
  terminates path st ↔ reachesMount path.
Proof.
  split.
  - intros (fuel & archived & Hret). revert path archived Hret.
    induction fuel as [|fuel IH]; intros path archived; [done|].
    rewrite buildArchivePath_S.
    destruct (decide (filepath.Clean path = filepath.Clean mountPath)) as [Hroot|Hroot].
    { intros _. by exists 0. }
    unfold bind.
    destruct (buildArchivePath fuel (filepath.Dir path) st) as [[parent| |] st'] eqn:Hrec;
      simpl; [|done..].
    intros _. destruct (IH (filepath.Dir path) parent) as [n Hn]; [by rewrite Hrec|].
    exists (S n). by rewrite Nat.iter_succ_r.
  - intros [n Hn]. revert path Hn. induction n as [|n IH]; intros path Hn.
    + exists 1. rewrite buildArchivePath_S. simpl in Hn.
      rewrite decide_True by done. by eexists.
    + rewrite Nat.iter_succ_r in Hn.
      destruct (IH _ Hn) as (fuel & parent & Hret). exists (S fuel).
      rewrite buildArchivePath_S.
      destruct (decide _); [by eexists|]. unfold bind.
      destruct (buildArchivePath fuel (filepath.Dir path) st) as [[] ?];
        simpl in *; [by eexists|done..].
Qed.

Lemma deleteAndPruneEmptyParents_calls (fuel : nat) (path : gostring) (st : State W) :
  ∃ cs, calls (deleteAndPruneEmptyParents fuel path st).2 = calls st ++ cs.
Proof.
  unfold deleteAndPruneEmptyParents, bind, RemoveAll, record.
  destruct (os_RemoveAll path (world st)) as [[err|] w']; simpl; [by eexists|].
  match goal with |- context [pruneEmptyParents fuel ?q ?s] =>
    destruct (pruneEmptyParents_Pruned fuel q s) as (cs & Hcs & _);
    destruct (pruneEmptyParents fuel q s) as [[] st'] end;
    simpl in *; rewrite Hcs, <- app_assoc; by eexists.
Qed.

(** The archiving part of [Delete]: once the archive name is computed, the
    directory is renamed to that name joined to the mount root. *)
Lemma archive_calls (fuel : nat) (oldPath : gostring) (st : State W) :
  ∃ cs, calls (archive fuel oldPath st).2 = calls st ++ cs
        ∧ ∀ archived, (buildArchivePath fuel oldPath st).1 = Returns archived →
            ∃ err, CallRename oldPath (filepath.Join [mountPath; archived]) err ∈ cs.
Proof.
  unfold archive. unfold bind at 1.
  pose proof (buildArchivePath_state fuel oldPath st) as Hst.
  destruct (buildArchivePath fuel oldPath st) as [[archived| |] st0]; simpl in *; subst st0;
    [| exists []; by rewrite app_nil_r ..].
  unfold bind, Stat, MkdirAll, Rename, record, ret. simpl.
  set (archiveDir := filepath.Join [mountPath; archiveSubPath]).
  set (target := filepath.Join [mountPath; archived]).
  destruct (IsNotExist (os_Stat archiveDir (world st))); simpl.
  - destruct (os_MkdirAll archiveDir mode0755 (world st)) as [e1 w1]; simpl.
    destruct (os_Rename oldPath target w1) as [[e2|] w2]; simpl.
    + eexists. rewrite <- !app_assoc. split; [done|].
      intros ? [= <-]. eexists. find_call.
    + match goal with |- context [pruneEmptyParents fuel ?q ?s] =>
        destruct (pruneEmptyParents_Pruned fuel q s) as (cs & Hcs & _);
        destruct (pruneEmptyParents fuel q s) as [[] st'] end;
        simpl in *; rewrite Hcs, <- !app_assoc; (eexists; split; [done|]);
        intros ? [= <-]; eexists; find_call.
  - destruct (os_Rename oldPath target (world st)) as [[e2|] w2]; simpl.
    + eexists. rewrite <- !app_assoc. split; [done|].
      intros ? [= <-]. eexists. find_call.
    + match goal with |- context [pruneEmptyParents fuel ?q ?s] =>
        destruct (pruneEmptyParents_Pruned fuel q s) as (cs & Hcs & _);
        destruct (pruneEmptyParents fuel q s) as [[] st'] end;
        simpl in *; rewrite Hcs, <- !app_assoc; (eexists; split; [done|]);
        intros ? [= <-]; eexists; find_call.
Qed.

End Walks.

(** * [strings.Replace] with a count of one *)

Lemma HasPrefix_spec (s pre : gostring) :
  strings.HasPrefix s pre = true ↔ ∃ t, s = pre ++ t.
Proof.
  revert s. induction pre as [|p pre IH]; intros s; simpl.
  { destruct s; (split; [intros _; by eexists | done]). }
  destruct s as [|c s]; simpl.
  { split; [done | by intros [t [=]]]. }
  rewrite andb_true_iff, Ascii.eqb_eq, IH. split.
  - intros [-> [t ->]]. by exists t.
  - intros [t [= -> ->]]. eauto.
Qed.

Lemma Replace1_eq (s old new : gostring) :
  strings.Replace1 s old new
  = if strings.HasPrefix s old then new ++ drop (length old) s
    else match s with
         | [] => []
         | c :: s' => c :: strings.Replace1 s' old new
         end.
Proof. by destruct s. Qed.

Lemma Replace1_absent (s old new : gostring) :
  (∀ pre post, s ≠ pre ++ old ++ post) → strings.Replace1 s old new = s.
Proof.
  induction s as [|c s IH]; intros Habsent; rewrite Replace1_eq.
  - destruct (strings.HasPrefix [] old) eqn:Hpre; [|done].
    apply HasPrefix_spec in Hpre as [t Ht]. by destruct (Habsent [] t).
  - destruct (strings.HasPrefix (c :: s) old) eqn:Hpre.
    { apply HasPrefix_spec in Hpre as [t Ht]. by destruct (Habsent [] t). }
    f_equal. apply IH. intros pre post ->. by destruct (Habsent (c :: pre) post).
Qed.

Lemma Replace1_first (s old new pre post : gostring) :
  s = pre ++ old ++ post →
  (∀ pre' post', s = pre' ++ old ++ post' → length pre ≤ length pre') →
  strings.Replace1 s old new = pre ++ new ++ post.
Proof.
  revert s. induction pre as [|c pre IH]; intros s -> Hfirst; rewrite Replace1_eq.
  - simpl. rewrite (proj2 (HasPrefix_spec _ _)) by eauto.
    by rewrite drop_app_length.
  - destruct (strings.HasPrefix _ old) eqn:Hpre.
    { apply HasPrefix_spec in Hpre as [t Ht].
      specialize (Hfirst [] t Ht). simpl in Hfirst. lia. }
    simpl. f_equal. apply IH; [done|]. intros pre' post' Heq.
    specialize (Hfirst (c :: pre') post'). simpl in Hfirst.
    rewrite Heq in Hfirst. specialize (Hfirst eq_refl). lia.
Qed.

(** * The deletion policy *)

Section DeleteFacts.

Context {W : Type} `{!OS W}.



Lemma Delete_calls (fuel : nat) (p : nfsProvisioner) (volume : PersistentVolume)
    (nfs : NFSVolumeSource) (st : State W) :
  NFS volume = Some nfs →
  ∃ cs, calls (Delete fuel p volume st).2
        = calls (afterStat (strings.Replace1 (Path nfs) (path p) mountPath) st) ++ cs.
Proof.
  intros Hnfs. unfold Delete. rewrite Hnfs. unfold bind at 1, Stat, record. simpl.
  set (oldPath := strings.Replace1 _ _ _). fold (afterStat oldPath st).
  assert (∃ cs, calls (@ret W (option error) None (afterStat oldPath st)).2
                = calls (afterStat oldPath st) ++ cs) as Hret
    by (exists []; by rewrite app_nil_r).
  destruct (IsNotExist _); [done|].
  destruct (getClassForVolume p volume) as [err|class];
    [exists []; by rewrite app_nil_r|].
  destruct (decide _); [apply deleteAndPruneEmptyParents_calls|].
  destruct (decide _); [done|].
  destruct (Parameters class !! _) as [value|].
  - destruct (strconv.ParseBool value) as [[] [err|]].
    + exists []; by rewrite app_nil_r.
    + destruct (archive_calls fuel oldPath (afterStat oldPath st)) as (cs & ? & _); eauto.
    + exists []; by rewrite app_nil_r.
    + apply deleteAndPruneEmptyParents_calls.
  - destruct (archive_calls fuel oldPath (afterStat oldPath st)) as (cs & ? & _); eauto.
Qed.

(** C10. The local path of [Delete], the one it hands to [os.Stat] first, is
    the volume path with the first occurrence of the export root replaced by
    [mountPath], wherever in the path that occurrence is: a volume path
    without the export root in it is used as it is, and an occurrence that
    starts after [pre], with none starting earlier, is replaced in place. *)
Theorem Delete_local_path (fuel : nat) (p : nfsProvisioner) (volume : PersistentVolume)
    (nfs : NFSVolumeSource) (st : State W) :
  NFS volume = Some nfs →
  let oldPath := strings.Replace1 (Path nfs) (path p) mountPath in
  (∃ cs, calls (Delete fuel p volume st).2
         = calls st ++ CallStat oldPath (os_Stat oldPath (world st)) :: cs)
  ∧ ((∀ pre post, Path nfs ≠ pre ++ path p ++ post) → oldPath = Path nfs)
  ∧ (∀ pre post,
       Path nfs = pre ++ path p ++ post →
       (∀ pre' post', Path nfs = pre' ++ path p ++ post' → length pre ≤ length pre') →
       oldPath = pre ++ mountPath ++ post).
Proof.
  intros Hnfs oldPath. repeat split.
  - destruct (Delete_calls fuel p volume nfs st Hnfs) as [cs Hcs].
    exists cs. rewrite Hcs. simpl. by rewrite <- app_assoc.
  - apply Replace1_absent.
  - intros pre post. apply Replace1_first.
Qed.

End DeleteFacts.

(** * Splitting and joining *)

Section SplitJoin.

Variable sep : ascii.

Lemma Split_nonempty (s : gostring) : strings.Split s sep ≠ [].
Proof.
  destruct s as [|c s]; simpl; [done|].
  destruct (Ascii.eqb c sep); [done|]. by destruct (strings.Split s sep).
Qed.

Lemma Split_plain (s : gostring) : sep ∉ s → strings.Split s sep = [s].
Proof.
  induction s as [|c s IH]; intros Hs; simpl; [done|].
  apply not_elem_of_cons in Hs as [Hc Hs].
  destruct (Ascii.eqb_spec c sep) as [->|_]; [done|]. by rewrite IH.
Qed.

Lemma Split_app (s t : gostring) :
  strings.Split (s ++ sep :: t) sep = strings.Split s sep ++ strings.Split t sep.
Proof.
  induction s as [|c s IH]; simpl.
  - by rewrite Ascii.eqb_refl.
  - destruct (Ascii.eqb c sep); rewrite IH; [done|].
    pose proof (Split_nonempty s). by destruct (strings.Split s sep).
Qed.

Lemma Split_elem_plain (s e : gostring) : e ∈ strings.Split s sep → sep ∉ e.
Proof.
  revert e. induction s as [|c s IH]; simpl; intros e He.
  - apply list_elem_of_singleton in He as ->. apply not_elem_of_nil.
  - destruct (Ascii.eqb_spec c sep) as [->|Hc].
    + apply elem_of_cons in He as [->|He]; [apply not_elem_of_nil | by apply IH].
    + destruct (strings.Split s sep) as [|seg rest] eqn:E.
      * apply list_elem_of_singleton in He as ->.
        apply not_elem_of_cons; split; [done | apply not_elem_of_nil].
      * apply elem_of_cons in He as [->|He].
        -- apply not_elem_of_cons; split; [done|]. apply IH. by left.
        -- apply IH. by right.
Qed.

Lemma Split_Join (l : list gostring) :
  l ≠ [] → Forall (λ e, sep ∉ e) l → strings.Split (strings.Join l [sep]) sep = l.
Proof.
  induction l as [|e l IH]; [done|]. intros _ Hl.
  apply Forall_cons in Hl as [He Hl].
  destruct l as [|e' l]; simpl.
  - by apply Split_plain.
  - rewrite Split_app, (Split_plain e) by done. simpl. f_equal. by apply IH.
Qed.


Lemma Join_snoc (l : list gostring) (e : gostring) :
  l ≠ [] → strings.Join (l ++ [e]) [sep] = strings.Join l [sep] ++ sep :: e.
Proof.
  induction l as [|x l IH]; [done|]. intros _.
  destruct l as [|y l]; [done|].
  change (strings.Join ((x :: y :: l) ++ [e]) [sep])
    with (x ++ [sep] ++ strings.Join ((y :: l) ++ [e]) [sep]).
  rewrite IH by done.
  change (strings.Join (x :: y :: l) [sep]) with (x ++ [sep] ++ strings.Join (y :: l) [sep]).
  by rewrite <- !app_assoc.
Qed.

End SplitJoin.

(** * Lexical facts about paths *)

Section PathFacts.

Local Abbreviation sep := filepath.Separator.
Local Abbreviation proper := (λ e, properName e = true).

Lemma properName_spec (e : gostring) :
  properName e = true ↔ e ≠ [] ∧ e ≠ filepath.dot ∧ e ≠ filepath.dotdot ∧ sep ∉ e.
Proof. unfold properName. by rewrite bool_decide_eq_true. Qed.

Lemma properName_plain (e : gostring) : properName e = true → sep ∉ e.
Proof. rewrite properName_spec. tauto. Qed.

Lemma Forall_proper_plain (l : list gostring) :
  Forall proper l → Forall (λ e, sep ∉ e) l.
Proof. intros H. eapply Forall_impl; [done|]. intros e. apply properName_plain. Qed.

Lemma takeElem_dropElem (r : gostring) :
  r = filepath.takeElem r ++ filepath.dropElem r.
Proof.
  induction r as [|c r IH]; simpl; [done|].
  destruct (Ascii.eqb c sep); [done|]. simpl. by f_equal.
Qed.

Lemma takeElem_plain (r : gostring) : sep ∉ filepath.takeElem r.
Proof.
  induction r as [|c r IH]; simpl; [apply not_elem_of_nil|].
  destruct (Ascii.eqb_spec c sep); [apply not_elem_of_nil|].
  apply not_elem_of_cons. split; [done | apply IH].
Qed.

Lemma dropElem_shape (r : gostring) :
  filepath.dropElem r = [] ∨ ∃ y, filepath.dropElem r = sep :: y.
Proof.
  induction r as [|c r IH]; simpl; [by left|].
  destruct (Ascii.eqb_spec c sep) as [->|]; [right; by eexists | done].
Qed.

Lemma path_decompose (s : gostring) :
  s = filepath.dirPrefix s ++ filepath.lastElem s.
Proof.
  unfold filepath.dirPrefix, filepath.lastElem.
  rewrite <- rev_app_distr, <- takeElem_dropElem. by rewrite rev_involutive.
Qed.

Lemma lastElem_plain (s : gostring) : sep ∉ filepath.lastElem s.
Proof.
  unfold filepath.lastElem. intros Hin. apply (takeElem_plain (rev s)).
  by apply list_elem_of_In, in_rev, list_elem_of_In.
Qed.

Lemma dirPrefix_shape (s : gostring) :
  filepath.dirPrefix s = [] ∨ ∃ pre, filepath.dirPrefix s = pre ++ [sep].
Proof.
  unfold filepath.dirPrefix.
  destruct (dropElem_shape (rev s)) as [->|[y ->]]; [by left|].
  right. exists (rev y). done.
Qed.

(** A path whose last element is [e]. *)
Lemma dirPrefix_snoc (pre e : gostring) :
  sep ∉ e → filepath.dirPrefix (pre ++ sep :: e) = pre ++ [sep].
Proof.
  intros He. unfold filepath.dirPrefix.
  rewrite rev_app_distr. simpl. rewrite <- app_assoc. simpl.
  assert (∀ x y, sep ∉ x → filepath.dropElem (x ++ sep :: y) = sep :: y) as Hdrop.
  { intros x y. induction x as [|c x IH]; simpl; intros Hx.
    - done.
    - apply not_elem_of_cons in Hx as [Hc Hx].
      destruct (Ascii.eqb_spec c sep); [done | by apply IH]. }
  rewrite Hdrop.
  - simpl. by rewrite rev_involutive.
  - intros Hin. apply He. by apply list_elem_of_In, in_rev, list_elem_of_In.
Qed.


Lemma Split_decompose (s : gostring) :
  strings.Split s sep
  = removelast (strings.Split (filepath.dirPrefix s) sep) ++ [filepath.lastElem s].
Proof.
  rewrite (path_decompose s) at 1.
  destruct (dirPrefix_shape s) as [->|[pre ->]].
  - simpl. apply Split_plain, lastElem_plain.
  - rewrite <- app_assoc. simpl. rewrite !Split_app. simpl.
    by rewrite removelast_last, (Split_plain _ (filepath.lastElem s)) by apply lastElem_plain.
Qed.

Lemma cleanStep_empty (rooted : bool) (stack : list gostring) :
  filepath.cleanStep rooted stack [] = stack.
Proof. done. Qed.

Lemma cleanElems_trailing (rooted : bool) (s : gostring) :
  filepath.cleanElems rooted (s ++ [sep]) = filepath.cleanElems rooted s.
Proof.
  unfold filepath.cleanElems. by rewrite Split_app, fold_left_app.
Qed.

(** Cleaning a path is cleaning its directory part and then meeting the
    last element. *)
Lemma cleanElems_step (rooted : bool) (s : gostring) :
  filepath.cleanElems rooted s
  = rev (filepath.cleanStep rooted
           (rev (filepath.cleanElems rooted (filepath.dirPrefix s)))
           (filepath.lastElem s)).
Proof.
  unfold filepath.cleanElems at 1. rewrite Split_decompose, fold_left_app. simpl.
  do 2 f_equal. unfold filepath.cleanElems. rewrite rev_involutive.
  destruct (dirPrefix_shape s) as [->|[pre ->]]; [done|].
  rewrite Split_app. simpl. by rewrite removelast_last, fold_left_app.
Qed.

Lemma cleanStep_proper (rooted : bool) (stack : list gostring) (e : gostring) :
  properName e = true → filepath.cleanStep rooted stack e = e :: stack.
Proof.
  rewrite properName_spec. intros (? & ? & ? & _).
  unfold filepath.cleanStep. by rewrite !decide_False.
Qed.

Lemma fold_cleanStep_proper (rooted : bool) (names stack : list gostring) :
  Forall proper names →
  fold_left (filepath.cleanStep rooted) names stack = rev names ++ stack.
Proof.
  revert stack. induction names as [|e names IH]; intros stack Hnames; [done|].
  apply Forall_cons in Hnames as [He Hnames]. simpl.
  rewrite cleanStep_proper, IH by done. by rewrite <- app_assoc.
Qed.

(** In a rooted path every step keeps a stack of proper names. *)
Lemma cleanStep_rooted (stack : list gostring) (e : gostring) :
  sep ∉ e → Forall proper stack →
  (filepath.cleanStep true stack e = stack ∧ (e = [] ∨ e = filepath.dot)
   ∨ filepath.cleanStep true stack e = tail stack ∧ e = filepath.dotdot
   ∨ filepath.cleanStep true stack e = e :: stack ∧ properName e = true).
Proof.
  intros He Hstack. unfold filepath.cleanStep.
  destruct (decide (e = [])); [left; tauto|].
  destruct (decide (e = filepath.dot)); [left; tauto|].
  destruct (decide (e = filepath.dotdot)) as [->|].
  - right. left. split; [|done]. destruct stack as [|top stack]; [done|].
    apply Forall_cons in Hstack as [Htop _].
    apply properName_spec in Htop as (_ & _ & Htop & _). by rewrite decide_False.
  - right. right. split; [done|]. by apply properName_spec.
Qed.

Lemma fold_cleanStep_rooted (l stack : list gostring) :
  Forall (λ e, sep ∉ e) l → Forall proper stack →
  Forall proper (fold_left (filepath.cleanStep true) l stack).
Proof.
  revert stack. induction l as [|e l IH]; intros stack Hl Hstack; [done|].
  apply Forall_cons in Hl as [He Hl]. simpl. apply IH; [done|].
  destruct (cleanStep_rooted stack e He Hstack) as [[-> _]|[[-> _]|[-> ?]]].
  - done.
  - destruct stack; [done|]. by apply Forall_cons in Hstack as [_ ?].
  - by constructor.
Qed.

Lemma cleanElems_rooted_proper (s : gostring) :
  Forall proper (filepath.cleanElems true s).
Proof.
  unfold filepath.cleanElems. apply Forall_rev, fold_cleanStep_rooted; [|done].
  apply Forall_forall. intros e. apply Split_elem_plain.
Qed.

Lemma IsAbs_Clean (s : gostring) :
  filepath.IsAbs s = true →
  filepath.Clean s = sep :: strings.Join (filepath.cleanElems true s) [sep].
Proof. intros Habs. destruct s; [done|]. unfold filepath.Clean. by rewrite Habs. Qed.

Lemma cleanElems_absolute (names : list gostring) :
  Forall proper names →
  filepath.cleanElems true (sep :: strings.Join names [sep]) = names.
Proof.
  intros Hnames. unfold filepath.cleanElems. simpl.
  destruct (decide (names = [])) as [->|Hne]; [done|].
  rewrite Split_Join, fold_cleanStep_proper by auto using Forall_proper_plain.
  by rewrite app_nil_r, rev_involutive.
Qed.

Lemma cleanElems_Clean (s : gostring) :
  filepath.IsAbs s = true →
  filepath.cleanElems true (filepath.Clean s) = filepath.cleanElems true s.
Proof.
  intros Habs. rewrite IsAbs_Clean by done.
  apply cleanElems_absolute, cleanElems_rooted_proper.
Qed.

Lemma IsAbs_dirPrefix (s : gostring) :
  filepath.IsAbs s = true → filepath.IsAbs (filepath.dirPrefix s) = true.
Proof.
  intros Habs. pose proof (path_decompose s) as Hdec.
  pose proof (lastElem_plain s) as Hlast.
  destruct (dirPrefix_shape s) as [Hd|[pre Hd]]; rewrite Hd in *.
  - simpl in Hdec. rewrite <- Hdec in Hlast. destruct s as [|c s]; [done|].
    simpl in Habs. apply Ascii.eqb_eq in Habs as ->.
    destruct Hlast. by left.
  - destruct pre as [|c pre]; simpl; [done|].
    rewrite Hdec in Habs. done.
Qed.

Lemma Dir_absolute (s : gostring) :
  filepath.IsAbs s = true →
  filepath.Dir s
  = sep :: strings.Join (filepath.cleanElems true (filepath.dirPrefix s)) [sep].
Proof. intros Habs. unfold filepath.Dir. by rewrite IsAbs_Clean by by apply IsAbs_dirPrefix. Qed.

Lemma IsAbs_Dir (s : gostring) :
  filepath.IsAbs s = true → filepath.IsAbs (filepath.Dir s) = true.
Proof. intros Habs. by rewrite Dir_absolute by done. Qed.

Lemma cleanElems_Dir (s : gostring) :
  filepath.IsAbs s = true →
  filepath.cleanElems true (filepath.Dir s)
  = filepath.cleanElems true (filepath.dirPrefix s).
Proof.
  intros Habs. unfold filepath.Dir. apply cleanElems_Clean. by apply IsAbs_dirPrefix.
Qed.

(** The elements of an absolute path in terms of those of its parent. *)
Lemma cleanElems_parent (s : gostring) :
  filepath.IsAbs s = true →
  let parent := filepath.cleanElems true (filepath.Dir s) in
  let elems := filepath.cleanElems true s in
  Forall proper parent
  ∧ (elems = parent
     ∨ elems = removelast parent
     ∨ elems = parent ++ [filepath.lastElem s] ∧ properName (filepath.lastElem s) = true).
Proof.
  intros Habs parent elems. split; [apply cleanElems_rooted_proper|].
  subst parent elems. rewrite cleanElems_Dir, (cleanElems_step true s) by done.
  set (parent := filepath.cleanElems true (filepath.dirPrefix s)).
  destruct (cleanStep_rooted (rev parent) (filepath.lastElem s))
    as [[-> _]|[[-> _]|[-> ?]]].
  - apply lastElem_plain.
  - apply Forall_rev, cleanElems_rooted_proper.
  - left. apply rev_involutive.
  - right. left. destruct parent as [|x parent _] using rev_ind; [done|].
    rewrite rev_app_distr. simpl. by rewrite rev_involutive, removelast_last.
  - right. right. simpl. by rewrite rev_involutive.
Qed.

(** The parent of a cleaned absolute path has one element less. *)
Lemma Dir_clean (names : list gostring) :
  Forall proper names →
  filepath.Dir (sep :: strings.Join names [sep])
  = sep :: strings.Join (removelast names) [sep].
Proof.
  intros Hnames. rewrite Dir_absolute by done. do 2 f_equal.
  destruct names as [|e names _] using rev_ind; [done|].
  apply Forall_app in Hnames as [Hnames He]. rewrite Forall_singleton in He.
  rewrite removelast_last.
  destruct (decide (names = [])) as [->|Hne].
  - simpl. replace (sep :: e) with ([] ++ sep :: e) by done.
    rewrite dirPrefix_snoc by by apply properName_plain. reflexivity.
  - rewrite Join_snoc by done.
    replace (sep :: strings.Join names [sep] ++ sep :: e)
      with ((sep :: strings.Join names [sep]) ++ sep :: e) by done.
    rewrite dirPrefix_snoc by by apply properName_plain.
    rewrite cleanElems_trailing. by apply cleanElems_absolute.
Qed.

End PathFacts.

(** * Walking up to the mount root *)

Section MountFacts.

Local Abbreviation sep := filepath.Separator.
Local Abbreviation proper := (λ e, properName e = true).

Lemma properName_mountName : properName mountName = true.
Proof. reflexivity. Qed.

(** An absolute path is cleaned to the mount root exactly when its only
    element is the name of the mount root. *)
Lemma Clean_mount_iff (s : gostring) :
  filepath.IsAbs s = true →
  filepath.Clean s = filepath.Clean mountPath ↔ filepath.cleanElems true s = [mountName].
Proof.
  intros Habs. split.
  - intros Heq. rewrite <- cleanElems_Clean, Heq by done. reflexivity.
  - intros Heq. rewrite IsAbs_Clean, Heq by done. reflexivity.
Qed.

Lemma atOrBelowMount_spec (s : gostring) :
  atOrBelowMount s = true
  ↔ filepath.IsAbs s = true ∧ ∃ rest, filepath.cleanElems true s = mountName :: rest.
Proof.
  unfold atOrBelowMount. rewrite andb_true_iff, bool_decide_eq_true.
  split; intros [Habs Hhead]; (split; [done|]).
  - destruct (filepath.cleanElems true s) as [|e rest]; [done|].
    injection Hhead as ->. by exists rest.
  - destruct Hhead as [rest ->]. done.
Qed.

Lemma belowMount_spec (s : gostring) :
  belowMount s = true
  ↔ filepath.IsAbs s = true
    ∧ ∃ e rest, filepath.cleanElems true s = mountName :: e :: rest.
Proof.
  unfold belowMount. rewrite andb_true_iff, bool_decide_eq_true, atOrBelowMount_spec.
  split.
  - intros [[Habs [rest Heq]] Hne]. split; [done|]. rewrite Heq in *.
    destruct rest as [|e rest]; [done|]. by exists e, rest.
  - intros [Habs (e & rest & Heq)]. rewrite Heq. split; [|done]. split; [done|].
    by eexists.
Qed.

Lemma head_removelast (l : list gostring) (x : gostring) :
  head (removelast l) = Some x → head l = Some x.
Proof. destruct l as [|y [|z l]]; done. Qed.

Lemma head_iter_removelast (n : nat) (l : list gostring) (x : gostring) :
  head (Nat.iter n (@removelast gostring) l) = Some x → head l = Some x.
Proof.
  induction n as [|n IH]; [done|]. simpl. intros H. by apply IH, head_removelast.
Qed.

Lemma Forall_removelast (P : gostring → Prop) (l : list gostring) :
  Forall P l → Forall P (removelast l).
Proof.
  destruct l as [|x l _] using rev_ind; [done|].
  rewrite removelast_last. by intros [? _]%Forall_app.
Qed.

Lemma Forall_iter_removelast (P : gostring → Prop) (n : nat) (l : list gostring) :
  Forall P l → Forall P (Nat.iter n (@removelast gostring) l).
Proof. intros Hl. induction n as [|n IH]; [done|]. simpl. by apply Forall_removelast. Qed.

(** The ancestors of a cleaned absolute path. *)
Lemma iter_Dir_clean (n : nat) (names : list gostring) :
  Forall proper names →
  Nat.iter n filepath.Dir (sep :: strings.Join names [sep])
  = sep :: strings.Join (Nat.iter n (@removelast gostring) names) [sep].
Proof.
  intros Hnames. induction n as [|n IH]; [done|]. simpl.
  rewrite IH. by apply Dir_clean, Forall_iter_removelast.
Qed.

(** From a cleaned absolute path the walk arrives at the mount root exactly
    when the path starts with the name of the mount root. *)
Lemma reachesMount_clean (names : list gostring) :
  Forall proper names →
  reachesMount (sep :: strings.Join names [sep]) ↔ head names = Some mountName.
Proof.
  intros Hnames. unfold reachesMount. split.
  - intros [n Hn]. rewrite iter_Dir_clean in Hn by done.
    apply Clean_mount_iff in Hn; [|done].
    rewrite cleanElems_absolute in Hn by by apply Forall_iter_removelast.
    apply (head_iter_removelast n). by rewrite Hn.
  - intros Hhead. destruct names as [|e rest]; [done|]. injection Hhead as ->.
    exists (length rest). rewrite iter_Dir_clean by done.
    apply Clean_mount_iff; [done|].
    rewrite cleanElems_absolute by by apply Forall_iter_removelast.
    clear Hnames. induction rest as [|x rest IH] using rev_ind; [done|].
    rewrite length_app, Nat.add_1_r, Nat.iter_succ_r.
    rewrite app_comm_cons, removelast_last. done.
Qed.

(** The same for any absolute path: either it is cleaned to the mount root,
    or its parent directory is the mount root or below it. *)
Lemma reachesMount_absolute (s : gostring) :
  filepath.IsAbs s = true →
  reachesMount s
  ↔ filepath.cleanElems true s = [mountName] ∨ atOrBelowMount (filepath.Dir s) = true.
Proof.
  intros Habs.
  assert (reachesMount s
          ↔ filepath.Clean s = filepath.Clean mountPath ∨ reachesMount (filepath.Dir s))
    as ->.
  { unfold reachesMount. split.
    - intros [[|n] Hn]; [by left|]. right. exists n. by rewrite <- Nat.iter_succ_r.
    - intros [Hroot|[n Hn]]; [by exists 0|]. exists (S n). by rewrite Nat.iter_succ_r. }
  rewrite Clean_mount_iff by done.
  rewrite (Dir_absolute s) at 1 by done.
  rewrite reachesMount_clean by apply cleanElems_rooted_proper.
  rewrite <- cleanElems_Dir by done.
  unfold atOrBelowMount. rewrite IsAbs_Dir by done. simpl.
  rewrite bool_decide_eq_true. tauto.
Qed.

(** Below the mount root, the parent directory is the mount root or below
    it. *)
Lemma atOrBelowMount_Dir (s : gostring) :
  belowMount s = true → atOrBelowMount (filepath.Dir s) = true.
Proof.
  rewrite belowMount_spec, atOrBelowMount_spec. intros [Habs (e & rest & Heq)].
  split; [by apply IsAbs_Dir|].
  destruct (cleanElems_parent s Habs) as [_ Hcases]. simpl in Hcases.
  rewrite Heq in Hcases.
  destruct (filepath.cleanElems true (filepath.Dir s)) as [|x parent].
  { destruct Hcases as [?|[?|[? _]]]; done. }
  exists parent. f_equal.
  destruct Hcases as [Hc|[Hc|[Hc _]]].
  - by injection Hc.
  - destruct parent; simpl in Hc; [done|]. by injection Hc.
  - simpl in Hc. by injection Hc.
Qed.

Lemma reachesMount_atOrBelow (s : gostring) :
  atOrBelowMount s = true → reachesMount s.
Proof.
  intros Hs. pose proof Hs as [Habs [rest Heq]]%atOrBelowMount_spec.
  apply reachesMount_absolute; [done|].
  destruct rest as [|e rest]; [by left|]. right.
  apply atOrBelowMount_Dir, belowMount_spec. split; [done|]. by exists e, rest.
Qed.

(** The number of elements of the parent directory. *)
Lemma length_cleanElems_Dir (s : gostring) :
  filepath.IsAbs s = true →
  length (filepath.cleanElems true (filepath.Dir s))
  ≤ S (length (filepath.cleanElems true s)).
Proof.
  intros Habs. destruct (cleanElems_parent s Habs) as [_ Hcases]. simpl in Hcases.
  destruct Hcases as [->|[->|[-> _]]].
  - lia.
  - destruct (filepath.cleanElems true (filepath.Dir s)) as [|x l _] using rev_ind;
      [simpl; lia|].
    rewrite removelast_last, length_app. simpl. lia.
  - rewrite length_app. simpl. lia.
Qed.

End MountFacts.

(** * Pruning and archiving walks *)

Section WalkFacts.

Context {W : Type} `{!OS W}.

Lemma buildArchivePath_no_panic (fuel : nat) (path : gostring) (st : State W) :
  (buildArchivePath fuel path st).1 ≠ Panics.
Proof.
  revert path. induction fuel as [|fuel IH]; intros path; [done|].
  rewrite buildArchivePath_S.
  destruct (decide _); [done|]. unfold bind.
  specialize (IH (filepath.Dir path)).
  by destruct (buildArchivePath fuel (filepath.Dir path) st) as [[] ?].
Qed.

(** From the mount root or below, every path that a pruning walk removes or
    tries to remove is strictly below the mount root. *)
Lemma Pruned_below (w w' : W) (path : gostring) (cs : list Call) (r : Result unit) :
  Pruned w path cs w' r →
  atOrBelowMount path = true →
  Forall (λ c, ∃ name err, c = CallRemove name err ∧ belowMount name = true) cs.
Proof.
  induction 1
    as [w path Hroot|w path|w path err w' Hroot Hrm|w path w' cs w'' r Hroot Hrm Hwalk IH];
    intros Hpath; [done..| |].
  - constructor; [|done]. eexists _, _. split; [done|].
    apply atOrBelowMount_spec in Hpath as [Habs [rest Heq]].
    apply belowMount_spec. split; [done|].
    destruct rest as [|e rest]; [|by eauto].
    destruct Hroot. by apply Clean_mount_iff.
  - assert (belowMount path = true) as Hbelow.
    { apply atOrBelowMount_spec in Hpath as [Habs [rest Heq]].
      apply belowMount_spec. split; [done|].
      destruct rest as [|e rest]; [|by eauto].
      destruct Hroot. by apply Clean_mount_iff. }
    constructor; [by eauto|]. by apply IH, atOrBelowMount_Dir.
Qed.

(** From the mount root or below, the walk ends within the number of
    elements of the path and two more steps. *)
Lemma pruneEmptyParents_returns (fuel : nat) (path : gostring) (st : State W) :
  atOrBelowMount path = true →
  length (filepath.cleanElems true path) + 2 ≤ fuel →
  (pruneEmptyParents fuel path st).1 = Returns tt.
Proof.
  intros Hpath Hfuel.
  assert (∀ fuel names st,
            length names < fuel → Forall (λ e, properName e = true) names →
            (pruneEmptyParents fuel
               (filepath.Separator :: strings.Join (mountName :: names) [filepath.Separator])
               st).1 = Returns tt) as Hclean.
  { clear. intros fuel. induction fuel as [|fuel IH]; intros names st Hlen Hnames; [lia|].
    rewrite pruneEmptyParents_S.
    destruct (decide _) as [|Hroot]; [done|].
    unfold bind, Remove, record. destruct (os_Remove _ _) as [[err|] w']; [done|].
    cbn [fst snd]. rewrite Dir_clean by (constructor; done).
    destruct names as [|e names _] using rev_ind.
    { destruct Hroot. reflexivity. }
    rewrite app_comm_cons, removelast_last. apply IH.
    - rewrite length_app in Hlen. simpl in Hlen. lia.
    - by apply Forall_app in Hnames as [? _]. }
  destruct fuel as [|fuel]; [lia|]. rewrite pruneEmptyParents_S.
  destruct (decide _) as [|Hroot]; [done|].
  unfold bind, Remove, record. destruct (os_Remove _ _) as [[err|] w']; [done|].
  cbn [fst snd].
  assert (belowMount path = true) as Hbelow.
  { apply atOrBelowMount_spec in Hpath as [Habs [rest Heq]].
    apply belowMount_spec. split; [done|].
    destruct rest as [|e rest]; [|by eauto].
    destruct Hroot. by apply Clean_mount_iff. }
  pose proof Hpath as [Habs _]%atOrBelowMount_spec.
  pose proof (atOrBelowMount_Dir path Hbelow) as [_ [rest Hrest]]%atOrBelowMount_spec.
  pose proof (length_cleanElems_Dir path Habs) as Hlen.
  pose proof (cleanElems_rooted_proper (filepath.Dir path)) as Hproper.
  rewrite (Dir_absolute path Habs), <- cleanElems_Dir, Hrest by done.
  rewrite Hrest in Hlen, Hproper. apply Hclean.
  - simpl in Hlen. lia.
  - by apply Forall_cons in Hproper as [_ ?].
Qed.

End WalkFacts.

(** An entry that [os.Remove] removes from the file system in memory has
    nothing below it. *)
Lemma MemFS_Remove_empty (name : gostring) (w w' : MemFS.World) :
  MemFS.Remove name w = (None, w') →
  MemFS.resolve name ≠ []
  ∧ is_Some (MemFS.nodes w !! MemFS.resolve name)
  ∧ (∀ key, MemFS.resolve name `prefix_of` key → key ≠ MemFS.resolve name →
            MemFS.nodes w !! key = None)
  ∧ MemFS.nodes w' = delete (MemFS.resolve name) (MemFS.nodes w).
Proof.
  unfold MemFS.Remove. destruct (decide (name = [])); [done|].
  destruct (MemFS.resolve name) as [|e key] eqn:Hkey; [done|].
  destruct (MemFS.nodes w !! (e :: key)) as [node|] eqn:Hnode; [|done].
  destruct (MemFS.hasEntries _ _) eqn:Hentries; [done|].
  intros [= <-]. repeat split; [done|by eauto|].
  intros k Hprefix Hne.
  unfold MemFS.hasEntries in Hentries. apply bool_decide_eq_false in Hentries.
  apply dec_stable in Hentries.
  destruct (MemFS.nodes w !! k) as [entry|] eqn:Hk; [|done].
  assert (MemFS.below (MemFS.nodes w) (e :: key) !! k = Some entry) as Hin.
  { unfold MemFS.below. by apply map_lookup_filter_Some. }
  rewrite Hentries in Hin. by rewrite lookup_empty in Hin.
Qed.

(** C7, as the code has it. A run of [pruneEmptyParents], in any world and
    with any fuel, is a pruning walk: it only calls [os.Remove], on the path,
    its parent and so on, never on a path whose cleaned form is the mount
    root, and the first failure ends it. It returns nothing, so no failure
    is reported, and [deleteAndPruneEmptyParents] returns nil once
    [os.RemoveAll] succeeded. From the mount root or below, every path it
    removes or tries to remove is strictly below the mount root, and it
    returns. In the file system in memory, what [os.Remove] removes has
    nothing below it. *)
Theorem pruneEmptyParents_walk :
  (∀ (W : Type) (os : OS W) (fuel : nat) (path : gostring) (st : State W),
     let out := pruneEmptyParents fuel path st in
     (∃ cs, calls out.2 = calls st ++ cs
            ∧ Pruned (world st) path cs (world out.2) out.1
            ∧ (atOrBelowMount path = true →
               Forall (λ c, ∃ name err, c = CallRemove name err ∧ belowMount name = true) cs))
     ∧ (out.1 = Returns tt ∨ out.1 = OutOfFuel)
     ∧ (atOrBelowMount path = true →
        length (filepath.cleanElems true path) + 2 ≤ fuel → out.1 = Returns tt)
     ∧ (∀ w', os_RemoveAll path (world st) = (None, w') →
        (deleteAndPruneEmptyParents fuel path st).1 = Returns None
        ∨ (deleteAndPruneEmptyParents fuel path st).1 = OutOfFuel))
  ∧ (∀ (name : gostring) (w w' : MemFS.World),
       MemFS.Remove name w = (None, w') →
       ∀ key, MemFS.resolve name `prefix_of` key → key ≠ MemFS.resolve name →
              MemFS.nodes w !! key = None).
Proof.
  split.
  - intros W os fuel path st out.
    destruct (pruneEmptyParents_Pruned fuel path st) as (cs & Hcs & Hwalk).
    split; [|split; [by eapply Pruned_no_panic|split]].
    + exists cs. repeat split; [done..|]. intros Hpath. by eapply Pruned_below.
    + apply pruneEmptyParents_returns.
    + intros w' Hrm.
      unfold deleteAndPruneEmptyParents, bind, RemoveAll, record. rewrite Hrm.
      cbn [fst snd].
      match goal with |- context [pruneEmptyParents fuel ?q ?s] =>
        pose proof (pruneEmptyParents_Pruned fuel q s) as (_ & _ & Hp%Pruned_no_panic);
        destruct (pruneEmptyParents fuel q s) as [[[]| |] ?] end; simpl in *;
        destruct Hp; (done || tauto).
  - intros name w w' Hrm. by apply MemFS_Remove_empty in Hrm as (_ & _ & ? & _).
Qed.

Lemma buildArchivePath_never (W : Type) (os : OS W) (path : gostring) (st : State W) :
  ¬ reachesMount path → ∀ fuel, (buildArchivePath fuel path st).1 = OutOfFuel.
Proof.
  intros Hnever fuel.
  pose proof (buildArchivePath_no_panic fuel path st) as Hpanic.
  destruct (buildArchivePath fuel path st) as [[archived| |] st'] eqn:Hrun; [|done..].
  destruct Hnever. apply (terminates_iff_reachesMount path st).
  exists fuel, archived. by rewrite Hrun.
Qed.

(** C9, as the code has it. The recursion of [buildArchivePath] ends exactly
    when the walk through the parent directories arrives at the cleaned mount
    root. For an absolute path that is the case exactly when the path is
    cleaned to the mount root or its parent directory is the mount root or
    below it; so the recursion ends for every absolute path that denotes the
    mount root or something below it, and for an absolute path already clean
    that denotes something else it never ends, whatever the fuel. *)
Theorem buildArchivePath_termination :
  ∀ (W : Type) (os : OS W) (path : gostring) (st : State W),
    (terminates path st ↔ reachesMount path)
    ∧ (filepath.IsAbs path = true →
       (terminates path st
        ↔ filepath.cleanElems true path = [mountName]
          ∨ atOrBelowMount (filepath.Dir path) = true)
       ∧ (atOrBelowMount path = true → terminates path st)
       ∧ (filepath.cleanElems true path ≠ [mountName] →
          atOrBelowMount (filepath.Dir path) = false →
          ∀ fuel, (buildArchivePath fuel path st).1 = OutOfFuel)
       ∧ (filepath.Clean path = path → atOrBelowMount path = false →
          ∀ fuel, (buildArchivePath fuel path st).1 = OutOfFuel)).
Proof.
  intros W os path st. split; [apply terminates_iff_reachesMount|].
  intros Habs. rewrite terminates_iff_reachesMount. repeat split.
  - by apply reachesMount_absolute.
  - by apply reachesMount_absolute.
  - apply reachesMount_atOrBelow.
  - intros Hroot Hdir. apply buildArchivePath_never.
    rewrite reachesMount_absolute by done. intros [?|Hbelow]; [done|].
    by rewrite Hdir in Hbelow.
  - intros Hclean Houtside. apply buildArchivePath_never.
    rewrite <- Hclean, IsAbs_Clean by done.
    rewrite reachesMount_clean by apply cleanElems_rooted_proper.
    intros Hhead. unfold atOrBelowMount in Houtside.
    by rewrite Habs, bool_decide_eq_true_2 in Houtside.
Qed.

(** * The archive path *)

Section ArchiveFacts.

Local Abbreviation sep := filepath.Separator.
Local Abbreviation proper := (λ e, properName e = true).




Lemma Clean_snoc (pre leaf : gostring) :
  filepath.IsAbs pre = true → properName leaf = true →
  filepath.Clean (pre ++ sep :: leaf)
  = sep :: strings.Join (filepath.cleanElems true pre ++ [leaf]) [sep].
Proof.
  intros Habs Hleaf. rewrite IsAbs_Clean by by destruct pre. do 2 f_equal.
  unfold filepath.cleanElems.
  rewrite Split_app, fold_left_app, Split_plain by by apply properName_plain.
  simpl. rewrite cleanStep_proper by done. done.
Qed.

Lemma digit_cases (n : N) :
  digit n ∈ ["0"; "1"; "2"; "3"; "4"; "5"; "6"; "7"; "8"; "9"]%char.
Proof.
  unfold digit. pose proof (N.mod_upper_bound n 10 ltac:(done)) as Hlt.
  destruct (n mod 10)%N as [|p] eqn:Hmod; [find_call|].
  do 4 (destruct p as [p|p|]; try lia; try find_call).
Qed.

Lemma digit_plain (n : N) : digit n ≠ sep.
Proof.
  intros Heq. pose proof (digit_cases n) as Hd. rewrite Heq in Hd.
  repeat (apply elem_of_cons in Hd as [Hd|Hd]; [done|]). by apply not_elem_of_nil in Hd.
Qed.

Lemma Format_plain (t : Time) : sep ∉ Format200601021504 t.
Proof.
  unfold Format200601021504, pad4, pad2. simpl.
  repeat (apply not_elem_of_cons; split; [apply not_eq_sym, digit_plain|]).
  apply not_elem_of_nil.
Qed.

Lemma Format_length (t : Time) : length (Format200601021504 t) = 12.
Proof. done. Qed.


Lemma Join_mount_archive (leaf : gostring) :
  properName leaf = true →
  filepath.Join [mountPath; archiveSubPath ++ ("/" : gostring) ++ leaf]
  = filepath.Clean mountPath ++ ("/" : gostring) ++ archiveSubPath
    ++ ("/" : gostring) ++ leaf.
Proof.
  intros Hleaf. unfold filepath.Join. rewrite decide_False by done.
  change (strings.Join [mountPath; archiveSubPath ++ ("/" : gostring) ++ leaf] [sep])
    with ((mountPath ++ sep :: archiveSubPath) ++ sep :: leaf).
  by rewrite Clean_snoc.
Qed.


Context {W : Type} `{!OS W}.


End ArchiveFacts.

Section ArchivePath.

Context {W : Type} `{!OS W}.

Local Abbreviation sep := filepath.Separator.
Local Abbreviation proper := (λ e, properName e = true).






End ArchivePath.

(** * The path templater *)

Section Templater.

Local Abbreviation openerTail := (tail pattern.opener).

Lemma opener_eq : pattern.opener = dollar :: openerTail.
Proof. reflexivity. Qed.

Lemma tokenText_Placeholder (key : gostring) :
  tokenText (Placeholder key) = dollar :: openerTail ++ key ++ [pattern.closer].
Proof. reflexivity. Qed.

Lemma plainKey_spec (key : gostring) :
  plainKey key = true
  ↔ (pattern.closer ∉ key) ∧ (pattern.newline ∉ key) ∧ (dollar ∉ key).
Proof. unfold plainKey. by rewrite bool_decide_eq_true. Qed.

(** What follows the first byte of a placeholder has no dollar in it. *)
Lemma placeholder_tail_plain (key : gostring) :
  plainKey key = true → dollar ∉ openerTail ++ key ++ [pattern.closer].
Proof.
  intros (_ & _ & Hkey)%plainKey_spec.
  rewrite !not_elem_of_app. repeat split; [|done|].
  - intros Hin. by repeat (apply elem_of_cons in Hin as [?|Hin]; [done|]);
                  apply not_elem_of_nil in Hin.
  - apply not_elem_of_cons. split; [done | apply not_elem_of_nil].
Qed.

Lemma key_unique (k key rest rest' : gostring) :
  pattern.closer ∉ k → pattern.closer ∉ key →
  k ++ pattern.closer :: rest = key ++ pattern.closer :: rest' → k = key.
Proof.
  revert key. induction k as [|c k IH]; intros key Hk Hkey Heq.
  - destruct key as [|c' key]; [done|]. injection Heq as <- _.
    destruct Hkey. by left.
  - destruct key as [|c' key].
    + injection Heq as -> _. destruct Hk. by left.
    + injection Heq as <- Heq. f_equal.
      apply not_elem_of_cons in Hk as [_ Hk]. apply not_elem_of_cons in Hkey as [_ Hkey].
      by apply IH.
Qed.

(** ** The occurrences that [strings.ReplaceAll] finds *)

Lemma replaceFrom_skip (x s old new : gostring) :
  strings.replaceFrom (length x) (x ++ s) old new = strings.replaceFrom 0 s old new.
Proof. induction x as [|c x IH]; [done|]. apply IH. Qed.

Lemma replaceFrom_plain (text s old new : gostring) :
  dollar ∉ text →
  strings.replaceFrom 0 (text ++ s) (dollar :: old) new
  = text ++ strings.replaceFrom 0 s (dollar :: old) new.
Proof.
  induction text as [|c text IH]; intros Htext; [done|].
  apply not_elem_of_cons in Htext as [Hc Htext].
  cbn [app strings.replaceFrom strings.HasPrefix].
  destruct (Ascii.eqb_spec dollar c); [done|]. cbn [andb]. by rewrite IH.
Qed.

Lemma replaceFrom_hit (s old new : gostring) :
  strings.replaceFrom 0 ((dollar :: old) ++ s) (dollar :: old) new
  = new ++ strings.replaceFrom 0 s (dollar :: old) new.
Proof.
  cbn [app strings.replaceFrom].
  rewrite (proj2 (HasPrefix_spec (dollar :: old ++ s) (dollar :: old))) by by exists s.
  replace (length (dollar :: old) - 1) with (length old) by (simpl; lia).
  by rewrite replaceFrom_skip.
Qed.

Lemma replaceFrom_miss (text s old new : gostring) :
  dollar ∉ text →
  strings.HasPrefix (dollar :: text ++ s) (dollar :: old) = false →
  strings.replaceFrom 0 (dollar :: text ++ s) (dollar :: old) new
  = dollar :: text ++ strings.replaceFrom 0 s (dollar :: old) new.
Proof.
  intros Htext Hmiss. cbn [strings.replaceFrom]. rewrite Hmiss.
  by rewrite replaceFrom_plain.
Qed.

(** Replacing a placeholder in a template of plain tokens replaces the tokens
    with that key and nothing else. *)
Lemma ReplaceAll_template (tokens : list token) (key value : gostring) :
  Forall (λ t, plainToken t = true) tokens → plainKey key = true →
  strings.ReplaceAll (templateOf tokens) (tokenText (Placeholder key)) value
  = templateOf (map (substToken key value) tokens).
Proof.
  intros Htokens Hkey. rewrite tokenText_Placeholder.
  change (strings.ReplaceAll ?s (dollar :: ?old) ?new)
    with (strings.replaceFrom 0 s (dollar :: old) new).
  induction Htokens as [|t tokens Ht _ IH]; [done|].
  unfold templateOf in *. cbn [map concat].
  destruct t as [text|k]; cbn [substToken tokenText].
  - apply bool_decide_eq_true in Ht. by rewrite replaceFrom_plain, IH.
  - cbn [plainToken] in Ht. destruct (decide (k = key)) as [->|Hne].
    + change ((pattern.opener ++ key ++ [pattern.closer]) ++ ?s)
        with ((dollar :: openerTail ++ key ++ [pattern.closer]) ++ s).
      by rewrite replaceFrom_hit, IH.
    + change ((pattern.opener ++ k ++ [pattern.closer]) ++ ?s)
        with (dollar :: (openerTail ++ k ++ [pattern.closer]) ++ s).
      rewrite replaceFrom_miss, IH; [done|by apply placeholder_tail_plain|].
      apply not_true_is_false. intros [rest Heq]%HasPrefix_spec.
      destruct Hne. injection Heq as Heq.
      rewrite <- !app_assoc in Heq.
      apply plainKey_spec in Ht as (? & _), Hkey as (? & _).
      cbn [app] in Heq. by eapply key_unique.
Qed.

(** ** The matches that the pattern finds *)

Lemma lazyKey_plain (key rest : gostring) :
  plainKey key = true → pattern.lazyKey (key ++ pattern.closer :: rest) = Some key.
Proof.
  intros (Hclose & Hnl & _)%plainKey_spec.
  induction key as [|c key IH]; [done|].
  apply not_elem_of_cons in Hclose as [? Hclose]. apply not_elem_of_cons in Hnl as [? Hnl].
  cbn [app pattern.lazyKey].
  destruct (Ascii.eqb_spec c pattern.closer); [done|].
  destruct (Ascii.eqb_spec c pattern.newline); [done|]. by rewrite IH.
Qed.

Lemma group0_groups (key : gostring) :
  pattern.group0 (pattern.groups key) = tokenText (Placeholder key).
Proof. unfold pattern.groups. by repeat case_match. Qed.

Lemma findFrom_skip (x s : gostring) :
  pattern.findFrom (length x) (x ++ s) = pattern.findFrom 0 s.
Proof. induction x as [|c x IH]; [done|]. apply IH. Qed.

Lemma findFrom_plain (text s : gostring) :
  dollar ∉ text → pattern.findFrom 0 (text ++ s) = pattern.findFrom 0 s.
Proof.
  induction text as [|c text IH]; intros Htext; [done|].
  apply not_elem_of_cons in Htext as [Hc Htext].
  cbn [app pattern.findFrom]. unfold pattern.matchHere.
  rewrite opener_eq. cbn [strings.HasPrefix].
  destruct (Ascii.eqb_spec dollar c); [done|]. cbn [andb]. by apply IH.
Qed.

Lemma findFrom_placeholder (key s : gostring) :
  plainKey key = true →
  pattern.findFrom 0 (tokenText (Placeholder key) ++ s)
  = pattern.groups key :: pattern.findFrom 0 s.
Proof.
  intros Hkey.
  assert (pattern.matchHere (tokenText (Placeholder key) ++ s) = Some (pattern.groups key))
    as Hmatch.
  { unfold pattern.matchHere. cbn [tokenText]. rewrite <- !app_assoc.
    rewrite (proj2 (HasPrefix_spec _ pattern.opener)) by by eexists.
    rewrite drop_app_length. cbn [app]. by rewrite lazyKey_plain. }
  rewrite tokenText_Placeholder in *. cbn [app pattern.findFrom] in *.
  rewrite Hmatch, group0_groups, tokenText_Placeholder.
  replace (length (dollar :: openerTail ++ key ++ [pattern.closer]) - 1)
    with (length (openerTail ++ key ++ [pattern.closer])) by (simpl; lia).
  by rewrite findFrom_skip.
Qed.

Lemma FindAll_template (tokens : list token) :
  Forall (λ t, plainToken t = true) tokens →
  pattern.FindAllStringSubmatch (templateOf tokens) = map pattern.groups (keysOf tokens).
Proof.
  unfold pattern.FindAllStringSubmatch, templateOf, keysOf.
  induction 1 as [|t tokens Ht _ IH]; [done|]. cbn [map concat].
  destruct t as [text|key]; cbn [plainToken] in Ht.
  - apply bool_decide_eq_true in Ht. by rewrite findFrom_plain.
  - rewrite findFrom_placeholder, IH by done. done.
Qed.

(** Every match is at least as long as the opener and the closing brace, so
    [strings.ReplaceAll] is never called with an empty string to replace. *)
Lemma FindAll_nonempty (s : gostring) (r : pattern.submatch) :
  r ∈ pattern.FindAllStringSubmatch s → pattern.group0 r ≠ [].
Proof.
  unfold pattern.FindAllStringSubmatch. generalize 0 as skip. revert r.
  induction s as [|c s IH]; intros r skip Hr; [by apply not_elem_of_nil in Hr|].
  cbn [pattern.findFrom] in Hr. destruct skip as [|skip]; [|by eapply IH].
  destruct (pattern.matchHere (c :: s)) as [m|] eqn:Hm; [|by eapply IH].
  apply elem_of_cons in Hr as [->|Hr]; [|by eapply IH].
  unfold pattern.matchHere in Hm. destruct (strings.HasPrefix _ _); [|done].
  destruct (pattern.lazyKey _) as [key|]; [|done]. injection Hm as <-.
  by rewrite group0_groups.
Qed.

(** ** The loop *)

Lemma replaceMatch_groups (meta : pvcMetadata) (str key : gostring) :
  replaceMatch meta str (pattern.groups key)
  = strings.ReplaceAll str (tokenText (Placeholder key)) (placeholderValue meta key).
Proof.
  unfold replaceMatch, pattern.groups, placeholderValue.
  destruct (strings.HasPrefix key "labels."); [done|].
  destruct (strings.HasPrefix key "annotations."); done.
Qed.

Lemma stringParser_fold (meta : pvcMetadata) (str : gostring) :
  stringParser meta str
  = fold_left (replaceMatch meta) (pattern.FindAllStringSubmatch str) str.
Proof. reflexivity. Qed.

Lemma substKeys_plain (meta : pvcMetadata) (keys : list gostring) (tokens : list token) :
  Forall (λ t, plainToken t = true) tokens →
  Forall (λ t, plainValue meta t = true) tokens →
  Forall (λ t, plainToken t = true) (map (substKeys meta keys) tokens).
Proof.
  intros Htokens Hvalues. apply Forall_map, Forall_forall. intros t Ht.
  rewrite Forall_forall in Htokens, Hvalues.
  specialize (Htokens t Ht). specialize (Hvalues t Ht).
  destruct t as [text|k]; [done|]. cbn [substKeys]. by destruct (decide _).
Qed.

Lemma substKeys_snoc (meta : pvcMetadata) (keys : list gostring) (key : gostring)
    (tokens : list token) :
  map (substToken key (placeholderValue meta key)) (map (substKeys meta keys) tokens)
  = map (substKeys meta (keys ++ [key])) tokens.
Proof.
  rewrite map_map. apply map_ext. intros [text|k]; [done|]. cbn [substKeys].
  destruct (decide (k ∈ keys)) as [Hin|Hout]; cbn [substToken].
  - rewrite decide_True; [done|]. apply elem_of_app. by left.
  - destruct (decide (k = key)) as [->|Hne].
    + rewrite decide_True; [done|]. apply elem_of_app. right. by left.
    + rewrite decide_False; [done|]. rewrite elem_of_app, list_elem_of_singleton. tauto.
Qed.

Lemma fold_replaceMatch (meta : pvcMetadata) (tokens : list token) (keys : list gostring) :
  Forall (λ t, plainToken t = true) tokens →
  Forall (λ t, plainValue meta t = true) tokens →
  Forall (λ k, plainKey k = true) keys →
  fold_left (replaceMatch meta) (map pattern.groups keys) (templateOf tokens)
  = templateOf (map (substKeys meta keys) tokens).
Proof.
  intros Htokens Hvalues. induction keys as [|key keys IH] using rev_ind; intros Hkeys.
  - cbn [map fold_left]. f_equal. rewrite <- (map_id tokens) at 1.
    apply map_ext. by intros [].
  - apply Forall_app in Hkeys as [Hkeys Hkey]. rewrite Forall_singleton in Hkey.
    rewrite map_app, fold_left_app, IH by done. cbn [map fold_left].
    rewrite replaceMatch_groups, ReplaceAll_template by auto using substKeys_plain.
    by rewrite substKeys_snoc.
Qed.

Lemma keysOf_plain (tokens : list token) :
  Forall (λ t, plainToken t = true) tokens → Forall (λ k, plainKey k = true) (keysOf tokens).
Proof.
  induction 1 as [|t tokens Ht _ IH]; [done|]. destruct t; [done|]. by constructor.
Qed.

Lemma substKeys_all (meta : pvcMetadata) (tokens : list token) :
  templateOf (map (substKeys meta (keysOf tokens)) tokens) = renderOnce meta tokens.
Proof.
  unfold templateOf, renderOnce. rewrite map_map. f_equal.
  apply map_ext_in. intros t Ht. destruct t as [text|k]; [done|]. cbn [substKeys].
  rewrite decide_True; [done|]. unfold keysOf.
  apply list_elem_of_omap. exists (Placeholder k). split; [by apply list_elem_of_In|done].
Qed.

(** C5, as the code has it. For a template of literal text and placeholders
    in which a dollar sign only opens a placeholder, rendered against metadata
    whose values for these placeholders have no dollar sign in them,
    [stringParser] gives what one pass gives that replaces every placeholder
    by its value: the label for [labels.<key>], the annotation for
    [annotations.<key>], the metadata field otherwise, and the empty string
    for a key that is not there. *)
Theorem stringParser_single_pass (meta : pvcMetadata) (tokens : list token) :
  Forall (λ t, plainToken t = true) tokens →
  Forall (λ t, plainValue meta t = true) tokens →
  stringParser meta (templateOf tokens) = renderOnce meta tokens
  ∧ (∀ key, labels meta !! key = None →
       placeholderValue meta (("labels." : gostring) ++ key) = [])
  ∧ (∀ key, annotations meta !! key = None →
       placeholderValue meta (("annotations." : gostring) ++ key) = [])
  ∧ (∀ key, strings.HasPrefix key "labels." = false →
       strings.HasPrefix key "annotations." = false →
       data meta !! key = None → placeholderValue meta key = []).
Proof.
  intros Htokens Hvalues. repeat split.
  - rewrite stringParser_fold, FindAll_template by done.
    rewrite fold_replaceMatch by auto using keysOf_plain. apply substKeys_all.
  - intros key Hmiss. unfold placeholderValue, index. cbn.
    rewrite (proj2 (HasPrefix_spec key [])) by by exists key. by rewrite drop_0, Hmiss.
  - intros key Hmiss. unfold placeholderValue, index. cbn.
    rewrite (proj2 (HasPrefix_spec key [])) by by exists key. by rewrite drop_0, Hmiss.
  - intros key Hl Ha Hmiss. unfold placeholderValue, index. by rewrite Hl, Ha, Hmiss.
Qed.

End Templater.

(** * The statements at sample inputs *)



Lemma Provision_rejects_selector_witness :
  let options := {|
    OptStorageClass := Examples.classWith ∅;
    PVName := "pvc-abc";
    PVC := {| Namespace := "ns1"; Name := "claim1"; Labels := ∅; Annotations := ∅;
              Selector := Some {| MatchLabels := ∅ |};
              ClaimAccessModes := []; Requests := ∅ |} |} in
  let st := MemFS.start Examples.emptyExport in
  Provision (Examples.provisionerWith ∅) options st
  = (Returns (None, ProvisioningFinished,
              Some (errorString "claim Selector is not supported")), st).
Proof.
  intros options st.
  apply (Provision_rejects_selector _ options {| MatchLabels := ∅ |} st). reflexivity.
Defined.



(** C8: the directory of the request is there already and belongs to
    somebody else; [os.MkdirAll] succeeds, [os.Chmod] fails. *)
Lemma Provision_chmod_failure_outcome_witness :
  let foreign : MemFS.World := {|
    MemFS.nodes :=
      list_to_map
        [ MemFS.dir "/persistentvolumes";
          (MemFS.resolve "/persistentvolumes/ns1-claim1-pvc-abc",
           {| MemFS.kind := MemFS.Directory; MemFS.perm := mode0755; MemFS.owned := false |}) ];
    MemFS.clock := Examples.may2024 |} in
  let out := Provision (Examples.provisionerWith ∅) (Examples.request ∅) (MemFS.start foreign) in
  out.1 = Returns (None, [],
                   Some (PathError "chmod" "/persistentvolumes/ns1-claim1-pvc-abc" EPERM))
  ∧ ([] : gostring) ≠ ProvisioningFinished.
Proof.
  intros foreign out.
  assert (out.1 = Returns (None, [],
                           Some (PathError "chmod" "/persistentvolumes/ns1-claim1-pvc-abc" EPERM)))
    as Hout by (vm_compute; reflexivity).
  split; [exact Hout|].
  destruct (Provision_chmod_failure_outcome (Examples.provisionerWith ∅) (Examples.request ∅)
              (MemFS.start foreign) _ eq_refl Hout) as (_ & Hne & _).
  - vm_compute. eauto.
  - exact Hne.
Defined.



Lemma Delete_local_path_witness :
  let p := Examples.provisionerWith ∅ in
  let volume := Examples.volumeAt "/data/export/x" in
  let st := MemFS.start Examples.emptyExport in
  strings.Replace1 ("/data/export/x" : gostring) (path p) mountPath
  = ("/data" : gostring) ++ mountPath ++ ("/x" : gostring)
  ∧ ∃ cs, calls (Delete 0 p volume st).2
          = CallStat "/data/persistentvolumes//x"
              (os_Stat ("/data/persistentvolumes//x" : gostring) (world st)) :: cs.
Proof.
  intros p volume st.
  destruct (Delete_local_path 0 p volume _ st eq_refl) as ((cs & Hcs) & _ & Hfirst).
  split.
  - apply (Hfirst ("/data" : gostring) ("/x" : gostring)); [reflexivity|].
    intros pre' post' Heq.
    destruct pre' as [|c0 [|c1 [|c2 [|c3 [|c4 pre']]]]]; simpl; try lia; discriminate Heq.
  - exists cs. exact Hcs.
Defined.

(** C7: from a directory outside the mount root the walk removes that
    directory and goes on to the root of the file system. *)
Lemma pruneEmptyParents_outside_mount :
  let w := Examples.exportWith [ "/scratch" : gostring ] in
  let out := pruneEmptyParents 3 "/scratch" (MemFS.start w) in
  atOrBelowMount "/scratch" = false
  ∧ calls out.2 = [ CallRemove "/scratch" None;
                    CallRemove "/" (Some (PathError "remove" "/" EBUSY)) ]
  ∧ belowMount "/" = false.
Proof. vm_compute. repeat split. Qed.

Lemma pruneEmptyParents_walk_witness :
  let w := Examples.exportWith [ "/persistentvolumes/team" : gostring;
                                 "/persistentvolumes/team/a" : gostring;
                                 "/persistentvolumes/other" : gostring ] in
  let out := pruneEmptyParents 5 "/persistentvolumes/team/a" (MemFS.start w) in
  out.1 = Returns tt
  ∧ ∃ cs, calls out.2 = cs
          ∧ Forall (λ c, ∃ name err, c = CallRemove name err ∧ belowMount name = true) cs.
Proof.
  intros w out.
  destruct pruneEmptyParents_walk as [Hwalk _].
  destruct (Hwalk _ _ 5 ("/persistentvolumes/team/a" : gostring) (MemFS.start w))
    as ((cs & Hcs & _ & Hbelow) & _ & Hreturns & _).
  split.
  - apply Hreturns; [reflexivity | vm_compute; lia].
  - exists cs. split; [exact Hcs | apply Hbelow; reflexivity].
Defined.

(** C9: the path [/persistentvolumes/..] is absolute and denotes the root of
    the file system, which is not below the mount root, and the recursion
    ends. (And the path [/persistentvolumes/../x], which starts with the mount
    root as a string, denotes [/x], and the recursion does not end.) *)
Lemma buildArchivePath_ends_outside_mount :
  (let path : gostring := "/persistentvolumes/.." in
   filepath.IsAbs path = true
   ∧ filepath.Clean path = "/"
   ∧ atOrBelowMount path = false
   ∧ (buildArchivePath 2 path (MemFS.start Examples.emptyExport)).1
     = Returns ("_archived_/202405011030..." : gostring))
  ∧ (let path : gostring := "/persistentvolumes/../x" in
     strings.HasPrefix path mountPath = true
     ∧ filepath.Clean path = "/x"
     ∧ ∀ fuel, (buildArchivePath fuel path (MemFS.start Examples.emptyExport)).1
               = OutOfFuel).
Proof.
  split; [vm_compute; by repeat split|].
  repeat split. apply buildArchivePath_never.
  rewrite reachesMount_absolute by done. by intros [?|?].
Qed.

Lemma buildArchivePath_termination_witness :
  let st := MemFS.start Examples.emptyExport in
  terminates "/persistentvolumes/team/a" st
  ∧ ∀ fuel, (buildArchivePath fuel "/scratch/a" st).1 = OutOfFuel.
Proof.
  intros st. split.
  - destruct (buildArchivePath_termination _ _ ("/persistentvolumes/team/a" : gostring) st)
      as (_ & Habs).
    destruct (Habs eq_refl) as (_ & Hbelow & _). apply Hbelow. reflexivity.
  - destruct (buildArchivePath_termination _ _ ("/scratch/a" : gostring) st) as (_ & Habs).
    destruct (Habs eq_refl) as (_ & _ & _ & Hclean). apply Hclean; reflexivity.
Defined.

(** C5 at sample inputs. First, an annotation whose value is itself a
    placeholder: the value put in for the first placeholder is rewritten when
    the loop comes to the second one. Second, a template in which a
    placeholder occurs inside the key of another one: replacing the inner
    one first leaves the rest of the outer one in the result. *)
Lemma stringParser_not_single_pass :
  (let meta := {| data := {[ ("name" : gostring) := ("claim1" : gostring) ]};
                  labels := ∅;
                  annotations := {[ ("a" : gostring) := ("${.PVC.name}" : gostring) ]} |} in
   let tokens := [ Placeholder "annotations.a"; Literal "-"; Placeholder "name" ] in
   templateOf tokens = "${.PVC.annotations.a}-${.PVC.name}"
   ∧ pattern.FindAllStringSubmatch (templateOf tokens)
     = [ pattern.groups "annotations.a"; pattern.groups "name" ]
   ∧ renderOnce meta tokens = "${.PVC.name}-claim1"
   ∧ stringParser meta (templateOf tokens) = "claim1-claim1")
  ∧ (let meta := {| data := ∅; labels := ∅; annotations := ∅ |} in
     let tokens := [ Placeholder "a"; Placeholder "x${.PVC.a" ] in
     templateOf tokens = "${.PVC.a}${.PVC.x${.PVC.a}"
     ∧ pattern.FindAllStringSubmatch (templateOf tokens)
       = [ pattern.groups "a"; pattern.groups "x${.PVC.a" ]
     ∧ renderOnce meta tokens = []
     ∧ stringParser meta (templateOf tokens) = "${.PVC.x").
Proof. vm_compute. repeat split. Qed.

Lemma stringParser_single_pass_witness :
  let meta := {| data := {[ ("name" : gostring) := ("claim1" : gostring) ]};
                 labels := {[ ("team" : gostring) := ("infra" : gostring) ]};
                 annotations := ∅ |} in
  stringParser meta "${.PVC.labels.team}/${.PVC.name}/${.PVC.nope}" = "infra/claim1/".
Proof.
  intros meta.
  destruct (stringParser_single_pass meta
              [ Placeholder "labels.team"; Literal "/"; Placeholder "name";
                Literal "/"; Placeholder "nope" ]) as [Hrender _].
  - repeat constructor.
  - repeat constructor.
  - exact Hrender.
Defined.

(** * Further properties of the code *)

(** ** The entry point *)

Section MainFacts.

Context {Config : Type}.

(** X1 ([main]): the controller is started exactly when the command line is
    accepted, the three environment variables [NFS_SERVER], [NFS_PATH] and
    [PROVISIONER_NAME] are non-empty, a client configuration is obtained and
    the client is built from it; the provisioner then holds that client and
    the two values read from the environment, unchanged. *)
Theorem main_runs_iff (proc : Process Config) (name : gostring) (p : nfsProvisioner) :
  main proc = Runs name p
  ↔ flag_Parse proc = None
    ∧ name = Getenv proc provisionerNameKey ∧ name ≠ []
    ∧ server p = Getenv proc "NFS_SERVER" ∧ server p ≠ []
    ∧ path p = Getenv proc "NFS_PATH" ∧ path p ≠ []
    ∧ ∃ config clientset,
        configOf proc = inr config
        ∧ NewForConfig proc config = inr clientset
        ∧ client p = Some clientset.
Proof.
  unfold main, configOf. split.
  - destruct (flag_Parse proc); [done|].
    destruct (decide (Getenv proc "NFS_SERVER" = [])) as [|Hserver]; [done|].
    destruct (decide (Getenv proc "NFS_PATH" = [])) as [|Hpath]; [done|].
    destruct (decide (Getenv proc provisionerNameKey = [])) as [|Hname]; [done|].
    destruct (decide (Getenv proc "KUBECONFIG" ≠ [])).
    + destruct (BuildConfigFromFlags proc [] (Getenv proc "KUBECONFIG")) as [|config];
        [done|].
      destruct (NewForConfig proc config) as [|clientset] eqn:Hclient; [done|].
      intros [= <- <-]. simpl. repeat split; try done. by exists config, clientset.
    + destruct (InClusterConfig proc) as [|config]; [done|].
      destruct (NewForConfig proc config) as [|clientset] eqn:Hclient; [done|].
      intros [= <- <-]. simpl. repeat split; try done. by exists config, clientset.
  - intros (-> & -> & Hname & Hs & Hserver & Hp & Hpath & config & clientset
            & Hconfig & Hclient & Hc).
    destruct p as [c s q]. cbn [client server path] in Hs, Hserver, Hp, Hpath, Hc. subst.
    rewrite !decide_False by done. revert Hconfig.
    destruct (decide (Getenv proc "KUBECONFIG" ≠ [])); intros ->; by rewrite Hclient.
Qed.

(** X2 ([main]): once the command line is accepted, every way out of [main]
    other than running the controller is [os.Exit(1)] after one non-empty
    message is logged; and when [NFS_SERVER] is empty nothing else is looked
    at: neither configuration source is asked and no client is built. *)
Theorem main_exits (proc : Process Config) :
  (∀ code logged, main proc = Exits code logged →
     code = 1%Z ∧ logged ≠ [] ∧ flag_Parse proc = None)
  ∧ (∀ code, main proc = ExitsInFlags code ↔ flag_Parse proc = Some code)
  ∧ (Getenv proc "NFS_SERVER" = [] →
     ∀ build inCluster new,
       main (Config := Config) {| flag_Parse := None; Getenv := Getenv proc;
               BuildConfigFromFlags := build; InClusterConfig := inCluster;
               NewForConfig := new |}
       = Exits 1 "NFS_SERVER not set").
Proof.
  unfold main. split; [|split].
  - intros code logged.
    destruct (flag_Parse proc); [done|].
    assert (∀ msg : gostring, msg ≠ [] →
              Exits 1 msg = Exits code logged →
              code = 1%Z ∧ logged ≠ [] ∧ None = (None : option Z)) as Hexit.
    { by intros msg Hmsg [= <- <-]. }
    destruct (decide (Getenv proc "NFS_SERVER" = [])); [by apply Hexit|].
    destruct (decide (Getenv proc "NFS_PATH" = [])); [by apply Hexit|].
    destruct (decide (Getenv proc provisionerNameKey = [])); [by apply Hexit|].
    destruct (decide (Getenv proc "KUBECONFIG" ≠ [])).
    + destruct (BuildConfigFromFlags proc [] (Getenv proc "KUBECONFIG")) as [|config];
        [by apply Hexit|].
      destruct (NewForConfig proc config); [by apply Hexit | done].
    + destruct (InClusterConfig proc) as [|config]; [by apply Hexit|].
      destruct (NewForConfig proc config); [by apply Hexit | done].
  - intros code. destruct (flag_Parse proc) as [c|].
    + split; [by intros [= ->] | by intros [= ->]].
    + split; [|done].
      destruct (decide (Getenv proc "NFS_SERVER" = [])); [done|].
      destruct (decide (Getenv proc "NFS_PATH" = [])); [done|].
      destruct (decide (Getenv proc provisionerNameKey = [])); [done|].
      destruct (decide (Getenv proc "KUBECONFIG" ≠ [])).
      * destruct (BuildConfigFromFlags proc [] (Getenv proc "KUBECONFIG")) as [|config];
          [done|].
        by destruct (NewForConfig proc config).
      * destruct (InClusterConfig proc) as [|config]; [done|].
        by destruct (NewForConfig proc config).
  - intros Hserver build inCluster new. simpl. by rewrite decide_True.
Qed.

(** X3 ([main]): of the two sources of the client configuration only one is
    consulted: with [KUBECONFIG] set the in-cluster configuration plays no
    part, and without it the configuration file loader plays none. *)
Theorem main_one_config_source (proc : Process Config) :
  (Getenv proc "KUBECONFIG" ≠ [] →
   ∀ inCluster,
     main (Config := Config) {| flag_Parse := flag_Parse proc; Getenv := Getenv proc;
             BuildConfigFromFlags := BuildConfigFromFlags proc;
             InClusterConfig := inCluster;
             NewForConfig := NewForConfig proc |}
     = main proc)
  ∧ (Getenv proc "KUBECONFIG" = [] →
     ∀ build,
       main (Config := Config) {| flag_Parse := flag_Parse proc; Getenv := Getenv proc;
               BuildConfigFromFlags := build;
               InClusterConfig := InClusterConfig proc;
               NewForConfig := NewForConfig proc |}
       = main proc).
Proof.
  unfold main. split; intros Hk other; simpl.
  - by rewrite !(decide_True (P := Getenv proc "KUBECONFIG" ≠ [])).
  - by rewrite !(decide_False (P := Getenv proc "KUBECONFIG" ≠ [])) by (by intros []).
Qed.

(** X4 ([main] with [getClassForVolume]): the provisioner that [main] hands
    to the controller always has a client, so looking up the class of a
    volume asks that client for the class named by the volume, or fails for
    want of a class name; the error for a missing client cannot come from
    [getClassForVolume] itself. *)
Theorem main_getClassForVolume (proc : Process Config) (name : gostring)
    (p : nfsProvisioner) (pv : PersistentVolume) :
  main proc = Runs name p →
  ∃ clientset,
    client p = Some clientset
    ∧ (GetPersistentVolumeClass pv = [] →
       getClassForVolume p pv = inl (errorString "volume has no storage class"))
    ∧ (GetPersistentVolumeClass pv ≠ [] →
       getClassForVolume p pv = clientset (GetPersistentVolumeClass pv)).
Proof.
  intros Hrun.
  assert (∃ clientset, client p = Some clientset) as [clientset Hc].
  { revert Hrun. unfold main.
    destruct (flag_Parse proc); [done|].
    destruct (decide (Getenv proc "NFS_SERVER" = [])); [done|].
    destruct (decide (Getenv proc "NFS_PATH" = [])); [done|].
    destruct (decide (Getenv proc provisionerNameKey = [])); [done|].
    destruct (decide (Getenv proc "KUBECONFIG" ≠ [])).
    - destruct (BuildConfigFromFlags proc [] (Getenv proc "KUBECONFIG")) as [|config];
        [done|].
      destruct (NewForConfig proc config); [done|]. intros [= <- <-]. by eexists.
    - destruct (InClusterConfig proc) as [|config]; [done|].
      destruct (NewForConfig proc config); [done|]. intros [= <- <-]. by eexists. }
  exists clientset. split; [done|]. unfold getClassForVolume. rewrite Hc.
  split; intros Hclass; [by rewrite decide_True | by rewrite decide_False].
Qed.

End MainFacts.

(** ** What [Delete] reports *)

Section DeleteOutcomes.

Context {W : Type} `{!OS W}.

(** The calls of a pruning walk are removals. *)
Lemma Pruned_removals (w w' : W) (path : gostring) (cs : list Call) (r : Result unit) :
  Pruned w path cs w' r → Forall (λ c, ∃ name err, c = CallRemove name err) cs.
Proof. induction 1; repeat constructor; eauto. Qed.

(** X5 ([getClassForVolume], [Delete]): when the directory is there (or its
    state cannot be told) and the class of the volume cannot be looked up,
    [Delete] returns the error of the lookup and has done nothing but the
    existence check; the world is as it was. *)
Theorem Delete_class_lookup_failure (fuel : nat) (p : nfsProvisioner)
    (volume : PersistentVolume) (nfs : NFSVolumeSource) (err : error) (st : State W) :
  NFS volume = Some nfs →
  IsNotExist (os_Stat (strings.Replace1 (Path nfs) (path p) mountPath) (world st)) = false →
  getClassForVolume p volume = inl err →
  Delete fuel p volume st
  = (Returns (Some err), afterStat (strings.Replace1 (Path nfs) (path p) mountPath) st)
  ∧ world (Delete fuel p volume st).2 = world st.
Proof.
  intros Hnfs Hstat Hclass. unfold Delete. rewrite Hnfs.
  unfold bind, Stat, record. cbn [fst snd world calls].
  rewrite Hstat, Hclass. done.
Qed.

(** X6 ([getClassForVolume], [Provision]): a class is returned only by the
    client, asked for a non-empty class name; with no client or no class
    name the lookup fails with its own two messages. The volume that
    [Provision] builds names no class (it is the controller that fills the
    class in afterwards): looked up as it is, it has no storage class. *)
Theorem getClassForVolume_cases (p : nfsProvisioner) (pv : PersistentVolume) :
  (∀ class, getClassForVolume p pv = inr class →
     ∃ clientset, client p = Some clientset
                  ∧ GetPersistentVolumeClass pv ≠ []
                  ∧ clientset (GetPersistentVolumeClass pv) = inr class)
  ∧ (client p = None →
     getClassForVolume p pv = inl (errorString "cannot get kube client"))
  ∧ (is_Some (client p) → GetPersistentVolumeClass pv = [] →
     getClassForVolume p pv = inl (errorString "volume has no storage class"))
  ∧ (is_Some (client p) →
     ∀ p' options reclaimPolicy exported,
       getClassForVolume p (volumeFor p' options reclaimPolicy exported)
       = inl (errorString "volume has no storage class")).
Proof.
  unfold getClassForVolume. destruct (client p) as [clientset|].
  - split; [|split; [done|split]].
    + intros class. destruct (decide (GetPersistentVolumeClass pv = [])); [done|].
      intros Hclass. by exists clientset.
    + intros _ Hno. by rewrite decide_True.
    + done.
  - split; [done|]. split; [done|]. split; [by intros []|by intros []].
Qed.

(** X7 ([deleteAndPruneEmptyParents]): the error returned is that of
    [os.RemoveAll] and nothing else. After a failed [os.RemoveAll] no parent
    is touched; after a successful one the calls that follow are removals,
    whose errors are never reported. *)
Theorem deleteAndPruneEmptyParents_outcome (fuel : nat) (path : gostring) (st : State W) :
  let out := deleteAndPruneEmptyParents fuel path st in
  let removed := os_RemoveAll path (world st) in
  ∃ pruned,
    calls out.2 = calls st ++ CallRemoveAll path removed.1 :: pruned
    ∧ Forall (λ c, ∃ name err, c = CallRemove name err) pruned
    ∧ (∀ err, removed.1 = Some err →
         out.1 = Returns (Some err) ∧ pruned = [] ∧ world out.2 = removed.2)
    ∧ (removed.1 = None → out.1 = Returns None ∨ out.1 = OutOfFuel)
    ∧ (∀ err, out.1 = Returns err → err = removed.1).
Proof.
  cbn zeta. unfold deleteAndPruneEmptyParents, bind, RemoveAll, record.
  destruct (os_RemoveAll path (world st)) as [[err|] w'] eqn:Hrm; cbn [fst snd].
  - exists []. cbn [fst snd world calls ret].
    split; [done|]. split; [done|]. split; [by intros ? [= <-]|]. split; [done|].
    intros ? Heq. by simplify_eq.
  - match goal with |- context [pruneEmptyParents fuel ?q ?s] =>
      destruct (pruneEmptyParents_Pruned fuel q s) as (cs & Hcs & Hwalk);
      pose proof (Pruned_removals _ _ _ _ _ Hwalk) as Hrem;
      pose proof (Pruned_no_panic _ _ _ _ _ Hwalk) as Hend;
      destruct (pruneEmptyParents fuel q s) as [r st'] end.
    cbn [fst snd world calls] in *. exists cs.
    destruct Hend as [-> | ->]; cbn [fst snd ret] in *;
      rewrite Hcs, <- app_assoc;
      (split; [done|]); (split; [done|]); (split; [done|]); (split; [auto|]);
      intros ? Heq; by simplify_eq.
Qed.


(** X9 ([buildArchivePath], [Delete]): when the walk through the parent
    directories of the local path never arrives at the mount root, the
    archiving part of [Delete] never returns, whatever the depth allowed,
    and it has made no call: nothing is renamed or created. *)
Theorem archive_never (oldPath : gostring) (st : State W) :
  ¬ reachesMount oldPath →
  ∀ fuel, archive fuel oldPath st = (OutOfFuel, st).
Proof.
  intros Hnever fuel.
  pose proof (buildArchivePath_never W _ oldPath st Hnever fuel) as Hout.
  pose proof (buildArchivePath_state fuel oldPath st) as Hst.
  unfold archive, bind.
  destruct (buildArchivePath fuel oldPath st) as [[a| |] st0]; simpl in Hout, Hst;
    try done. by subst.
Qed.

End DeleteOutcomes.

(** ** More on the path templater *)

Section TemplaterFacts.

Lemma lazyKey_unclosed (s : gostring) :
  pattern.closer ∉ s → pattern.lazyKey s = None.
Proof.
  induction s as [|c s IH]; intros Hs; [done|].
  apply not_elem_of_cons in Hs as [Hc Hs]. cbn [pattern.lazyKey].
  destruct (Ascii.eqb_spec c pattern.closer); [congruence|].
  destruct (Ascii.eqb c pattern.newline); [done|]. by rewrite IH.
Qed.

Lemma matchHere_none (s : gostring) :
  strings.HasPrefix s pattern.opener = false ∨ pattern.closer ∉ s →
  pattern.matchHere s = None.
Proof.
  intros [Hopen|Hclose]; unfold pattern.matchHere.
  - by rewrite Hopen.
  - destruct (strings.HasPrefix s pattern.opener); [|done].
    rewrite lazyKey_unclosed; [done|].
    intros Hin. apply Hclose. by eapply subseteq_drop.
Qed.

Lemma findFrom_none (s : gostring) :
  strings.Contains s pattern.opener = false ∨ pattern.closer ∉ s →
  ∀ skip, pattern.findFrom skip s = [].
Proof.
  induction s as [|c s IH]; intros Hs skip; [by destruct skip|].
  assert (strings.Contains s pattern.opener = false ∨ pattern.closer ∉ s) as Htail.
  { destruct Hs as [Hs|Hs].
    - left. cbn [strings.Contains] in Hs. by apply orb_false_iff in Hs as [_ ?].
    - right. by apply not_elem_of_cons in Hs as [_ ?]. }
  cbn [pattern.findFrom]. destruct skip as [|k]; [|by apply IH].
  rewrite matchHere_none; [by apply IH|].
  destruct Hs as [Hs|Hs]; [left | by right].
  cbn [strings.Contains] in Hs. by apply orb_false_iff in Hs as [? _].
Qed.

(** X10 ([stringParser]): a string in which the opening [${.PVC.] does not
    occur, or with no closing brace, has no placeholder and is returned as
    it is, whatever the metadata. *)
Theorem stringParser_no_placeholder (meta : pvcMetadata) (str : gostring) :
  strings.Contains str pattern.opener = false ∨ pattern.closer ∉ str →
  pattern.FindAllStringSubmatch str = [] ∧ stringParser meta str = str.
Proof.
  intros Hstr. rewrite stringParser_fold. unfold pattern.FindAllStringSubmatch.
  by rewrite findFrom_none.
Qed.



Lemma stringParser_template (meta : pvcMetadata) (tokens : list token) :
  Forall (λ t, plainToken t = true) tokens →
  Forall (λ t, plainValue meta t = true) tokens →
  stringParser meta (templateOf tokens) = renderOnce meta tokens.
Proof.
  intros Htokens Hvalues.
  rewrite stringParser_fold, FindAll_template by done.
  rewrite fold_replaceMatch by auto using keysOf_plain. apply substKeys_all.
Qed.

End TemplaterFacts.

Section PatternProvision.

Context {W : Type} `{!OS W}.

(** X12 ([Provision] with [stringParser]): for a path pattern made of
    literal text and placeholders, none of them with a [$] in its text, key
    or value, the directory that [Provision] creates is the mount root
    joined with the pattern after every placeholder is replaced by its
    value, and the exported path is the export root joined with the same;
    when that text is empty both fall back to
    [<namespace>-<claim name>-<volume name>]. *)
Theorem Provision_pattern (p : nfsProvisioner) (options : ProvisionOptions)
    (tokens : list token) (st : State W) :
  Selector (PVC options) = None →
  Parameters (OptStorageClass options) !! ("pathPattern" : gostring)
  = Some (templateOf tokens) →
  Forall (λ t, plainToken t = true) tokens →
  Forall (λ t, plainValue (metadataOf options) t = true) tokens →
  let rendered := renderOnce (metadataOf options) tokens in
  let relative :=
    if decide (rendered = []) then
      strings.Join [Namespace (PVC options); Name (PVC options); PVName options] "-"
    else rendered in
  relativePath options = relative
  ∧ (∃ err cs, calls (Provision p options st).2
               = calls st ++ CallMkdirAll (filepath.Join [mountPath; relative]) mode0777 err
                             :: cs)
  ∧ (∀ pv state err, (Provision p options st).1 = Returns (Some pv, state, err) →
       NFS pv = Some {| Server := server p;
                        Path := filepath.Join [path p; relative];
                        ReadOnly := false |}).
Proof.
  intros Hsel Hpattern Htokens Hvalues rendered relative.
  assert (relativePath options = relative) as Hrel.
  { unfold relativePath, relative, rendered. rewrite Hpattern.
    rewrite stringParser_template by done.
    destruct (decide (renderOnce (metadataOf options) tokens = [])) as [Hempty|Hfull].
    - by rewrite decide_False by (by intros []).
    - by rewrite decide_True. }
  split; [done|]. rewrite <- Hrel, Provision_run by done.
  unfold bind, MkdirAll, Chmod, record, ret, panic.
  destruct (os_MkdirAll _ mode0777 (world st)) as [[e|] w1]; cbn [fst snd world calls].
  { split; [by exists (Some e), []|]. by intros ??? [=]. }
  destruct (os_Chmod _ mode0777 w1) as [[e|] w2]; cbn [fst snd world calls].
  { split; [|by intros ??? [=]]. eexists None, _. by rewrite <- app_assoc. }
  destruct (ReclaimPolicy (OptStorageClass options)); cbn [fst snd world calls].
  - split; [eexists None, _; by rewrite <- app_assoc|]. by intros ??? [= <- _ _].
  - split; [eexists None, _; by rewrite <- app_assoc|]. by intros ??? [=].
Qed.

End PatternProvision.

(** ** From [Provision] to [Delete] *)

Section RoundTrip.

Local Abbreviation sep := filepath.Separator.
Local Abbreviation proper := (λ e, properName e = true).

Lemma Join_app (l1 l2 : list gostring) :
  l1 ≠ [] → l2 ≠ [] →
  strings.Join (l1 ++ l2) [sep] = strings.Join l1 [sep] ++ sep :: strings.Join l2 [sep].
Proof.
  intros Hl1 Hl2. induction l1 as [|e l1 IH]; [done|].
  destruct l1 as [|e' l1].
  - destruct l2; [done|]. done.
  - change (strings.Join ((e :: e' :: l1) ++ l2) [sep])
      with (e ++ sep :: strings.Join ((e' :: l1) ++ l2) [sep]).
    rewrite IH by done.
    change (strings.Join (e :: e' :: l1) [sep])
      with (e ++ sep :: strings.Join (e' :: l1) [sep]).
    by rewrite <- app_assoc.
Qed.

Lemma cleanElems_app_names (s : gostring) (names : list gostring) :
  Forall proper names →
  filepath.cleanElems true (s ++ sep :: strings.Join names [sep])
  = filepath.cleanElems true s ++ names.
Proof.
  intros Hnames. unfold filepath.cleanElems. rewrite Split_app, fold_left_app.
  destruct (decide (names = [])) as [->|Hne].
  { simpl. by rewrite cleanStep_empty, app_nil_r. }
  rewrite Split_Join, fold_cleanStep_proper by auto using Forall_proper_plain.
  by rewrite rev_app_distr, rev_involutive.
Qed.

Lemma Join_two (a b : gostring) :
  a ≠ [] → filepath.Join [a; b] = filepath.Clean (a ++ sep :: b).
Proof. intros Ha. unfold filepath.Join. by rewrite decide_False. Qed.

Lemma cleanElems_mountPath : filepath.cleanElems true mountPath = [mountName].
Proof. by apply Clean_mount_iff. Qed.

(** A cleaned absolute path has no two separators in a row. *)
Lemma clean_no_double_separator (names : list gostring) (a b : gostring) :
  Forall proper names →
  sep :: strings.Join names [sep] ≠ a ++ sep :: sep :: b.
Proof.
  intros Hnames Heq.
  assert (strings.Split (sep :: strings.Join names [sep]) sep
          = strings.Split a sep ++ [] :: strings.Split b sep) as Hsplit.
  { by rewrite Heq, Split_app. }
  change (strings.Split (sep :: ?s) sep) with ([] :: strings.Split s sep) in Hsplit.
  pose proof (Split_nonempty sep a) as Ha.
  pose proof (Split_nonempty sep b) as Hb.
  destruct (strings.Split a sep) as [|x xs]; [done|]. clear Ha.
  injection Hsplit as _ Hsplit.
  destruct (decide (names = [])) as [->|Hne].
  { simpl in Hsplit. destruct xs; [|by destruct xs].
    injection Hsplit as Hsplit. by destruct (strings.Split b sep). }
  rewrite Split_Join in Hsplit by auto using Forall_proper_plain.
  rewrite Hsplit in Hnames. apply Forall_app in Hnames as [_ Hnames].
  by apply Forall_cons in Hnames as [? _].
Qed.

(** The path exported for a relative path of plain names under a cleaned
    absolute export path, and the local path that [Delete] makes of it: the
    mount path, with or without its trailing separator, a separator and the
    relative path. *)
Lemma exported_local_path (p : nfsProvisioner) (root rels : list gostring) :
  path p = sep :: strings.Join root [sep] → Forall proper root →
  rels ≠ [] → Forall proper rels →
  let exported := filepath.Join [path p; strings.Join rels [sep]] in
  exported = sep :: strings.Join (root ++ rels) [sep]
  ∧ ∃ pre, strings.Replace1 exported (path p) mountPath
           = pre ++ sep :: strings.Join rels [sep]
           ∧ (pre = sep :: mountName ∨ pre = mountPath).
Proof.
  intros Hpath Hroot Hne Hrels exported.
  assert (exported = sep :: strings.Join (root ++ rels) [sep]) as Hexported.
  { unfold exported. rewrite Join_two by by rewrite Hpath.
    rewrite IsAbs_Clean by by rewrite Hpath.
    by rewrite cleanElems_app_names, Hpath, cleanElems_absolute. }
  split; [done|].
  assert (∃ pre, mountPath ++ drop (length (path p)) exported
                 = pre ++ sep :: strings.Join rels [sep]
                 ∧ (pre = sep :: mountName ∨ pre = mountPath)
                 ∧ strings.HasPrefix exported (path p) = true)
    as (pre & Hold & Hpre & Hprefix).
  { rewrite Hexported, Hpath. destruct (decide (root = [])) as [->|Hroot'].
    - exists (sep :: mountName). split; [done|]. split; [by left|].
      apply HasPrefix_spec. by eexists.
    - exists mountPath. rewrite Join_app by done.
      rewrite app_comm_cons, drop_app_length. split; [done|]. split; [by right|].
      apply HasPrefix_spec. by eexists. }
  exists pre. split; [|done]. by rewrite Replace1_eq, Hprefix.
Qed.

Lemma cleanElems_mount_prefix (pre : gostring) (rels : list gostring) :
  pre = sep :: mountName ∨ pre = mountPath → Forall proper rels →
  filepath.IsAbs (pre ++ sep :: strings.Join rels [sep]) = true
  ∧ filepath.cleanElems true (pre ++ sep :: strings.Join rels [sep]) = mountName :: rels.
Proof.
  intros Hpre Hrels. rewrite cleanElems_app_names by done.
  by destruct Hpre as [-> | ->].
Qed.

Context {W : Type} `{!OS W}.

(** X13 ([Provision], [Delete]): the round trip of a path. For a cleaned
    absolute export path and a relative path made of plain names, the local
    path that [Delete] computes from the exported path of the volume that
    [Provision] made is, once cleaned, the directory [Provision] created; it
    is strictly below the mount root, and it is the first thing [Delete]
    looks at. *)
Theorem Delete_finds_provisioned_directory (p : nfsProvisioner)
    (options : ProvisionOptions) (root rels : list gostring)
    (pv volume : PersistentVolume) (state : ProvisioningState) (err : option error)
    (fuel : nat) (st st' : State W) :
  path p = sep :: strings.Join root [sep] → Forall (λ e, properName e = true) root →
  relativePath options = strings.Join rels [sep] →
  rels ≠ [] → Forall (λ e, properName e = true) rels →
  (Provision p options st).1 = Returns (Some pv, state, err) →
  NFS volume = NFS pv →
  let created := filepath.Join [mountPath; relativePath options] in
  ∃ oldPath cs,
    created = sep :: strings.Join (mountName :: rels) [sep]
    ∧ CallMkdirAll created mode0777 None ∈ calls (Provision p options st).2
    ∧ calls (Delete fuel p volume st').2
      = calls st' ++ CallStat oldPath (os_Stat oldPath (world st')) :: cs
    ∧ filepath.Clean oldPath = created
    ∧ filepath.cleanElems true oldPath = filepath.cleanElems true created
    ∧ belowMount oldPath = true.
Proof.
  intros Hpath Hroot Hrel Hne Hrels Hprov Hnfs created.
  assert (Selector (PVC options) = None) as Hsel.
  { destruct (Selector (PVC options)) eqn:Hsel; [|done].
    unfold Provision in Hprov. by rewrite Hsel in Hprov. }
  assert (relativePath options ≠ []) as Hfull.
  { rewrite Hrel. destruct rels as [|e rels]; [done|].
    apply Forall_cons in Hrels as [(He & _)%properName_spec _].
    destruct rels; [done|]. by destruct e. }
  assert (created = sep :: strings.Join (mountName :: rels) [sep]) as Hcreated.
  { unfold created. rewrite Join_two, Hrel by done.
    rewrite IsAbs_Clean by done.
    by rewrite cleanElems_app_names, cleanElems_mountPath. }
  destruct (exported_local_path p root rels Hpath Hroot Hne Hrels)
    as (Hexported & pre & Hold & Hpre).
  rewrite <- Hrel in Hexported, Hold.
  destruct (cleanElems_mount_prefix pre rels Hpre Hrels) as [Habs Hclean].
  rewrite <- Hrel in Habs, Hclean. rewrite <- Hold in Habs, Hclean.
  assert (NFS pv = Some {| Server := server p;
                           Path := filepath.Join [path p; relativePath options];
                           ReadOnly := false |}
          ∧ CallMkdirAll created mode0777 None ∈ calls (Provision p options st).2)
    as [Hpv Hmkdir].
  { revert Hprov. rewrite Provision_run by done. fold created.
    unfold bind, MkdirAll, Chmod, record, ret, panic.
    destruct (os_MkdirAll created mode0777 (world st)) as [[e|] w1];
      cbn [fst snd world calls]; [done|].
    destruct (os_Chmod created mode0777 w1) as [[e|] w2];
      cbn [fst snd world calls]; [done|].
    destruct (ReclaimPolicy (OptStorageClass options)); cbn [fst snd calls]; [|done].
    intros [= <- _ _]. split; [done|].
    apply elem_of_app. left. apply elem_of_app. right. by left. }
  rewrite Hpv in Hnfs.
  destruct (Delete_calls fuel p volume _ st' Hnfs) as [cs Hcalls].
  cbn [Path afterStat calls] in Hcalls. rewrite <- app_assoc in Hcalls.
  set (oldPath := strings.Replace1 (filepath.Join [path p; relativePath options])
                    (path p) mountPath) in *.
  exists oldPath, cs. split; [done|]. split; [done|]. split; [done|].
  split; [|split].
  - rewrite IsAbs_Clean by done. by rewrite Hclean.
  - by rewrite Hclean, Hcreated, cleanElems_absolute by
      (constructor; [apply properName_mountName | done]).
  - apply belowMount_spec. split; [done|].
    destruct rels as [|e rest]; [done|]. by exists e, rest.
Qed.

(** X14 ([Delete]): an export path that is absolute but has two separators
    in a row never occurs in an exported path, which [Provision] cleans. So
    [Delete] replaces nothing: the path it checks, and then removes or
    renames, is the exported path itself and not a path under the mount
    root. *)
Theorem Delete_unclean_export_path (p : nfsProvisioner) (relative : gostring)
    (a b : gostring) :
  filepath.IsAbs (path p) = true →
  path p = a ++ sep :: sep :: b →
  let exported := filepath.Join [path p; relative] in
  strings.Replace1 exported (path p) mountPath = exported
  ∧ ∀ (fuel : nat) (volume : PersistentVolume) (st : State W),
      NFS volume = Some {| Server := server p; Path := exported; ReadOnly := false |} →
      ∃ cs, calls (Delete fuel p volume st).2
            = calls st ++ CallStat exported (os_Stat exported (world st)) :: cs.
Proof.
  intros Habs Hpath exported.
  assert (strings.Replace1 exported (path p) mountPath = exported) as Hsame.
  { apply Replace1_absent. intros pre post. unfold exported.
    rewrite Join_two by by destruct (path p).
    rewrite IsAbs_Clean by by destruct (path p).
    rewrite Hpath at 2. rewrite <- !app_assoc. cbn [app].
    rewrite (app_assoc pre a). apply clean_no_double_separator.
    apply cleanElems_rooted_proper. }
  split; [done|]. intros fuel volume st Hnfs.
  destruct (Delete_calls fuel p volume _ st Hnfs) as [cs Hcalls].
  cbn [Path afterStat calls] in Hcalls. rewrite <- app_assoc in Hcalls.
  rewrite Hsame in Hcalls. by exists cs.
Qed.

End RoundTrip.

(** ** The names of archives *)

Section ArchiveNames.

Local Abbreviation sep := filepath.Separator.
Local Abbreviation proper := (λ e, properName e = true).

Lemma dropSeparators_nil (r : gostring) :
  filepath.dropSeparators r = [] → Forall (λ c, c = sep) r.
Proof.
  induction r as [|c r IH]; [done|]. cbn [filepath.dropSeparators].
  destruct (Ascii.eqb_spec c sep) as [->|]; [|done]. intros Hr. constructor; auto.
Qed.

Lemma takeElem_dropSeparators (r : gostring) :
  filepath.takeElem (filepath.dropSeparators r) = [] → filepath.dropSeparators r = [].
Proof.
  induction r as [|c r IH]; [done|]. cbn [filepath.dropSeparators].
  destruct (Ascii.eqb_spec c sep) as [->|Hc]; [done|].
  cbn [filepath.takeElem]. by destruct (Ascii.eqb_spec c sep).
Qed.

Lemma Split_separators (s : gostring) :
  Forall (λ c, c = sep) s → Forall (λ e, e = []) (strings.Split s sep).
Proof.
  induction 1 as [|c s -> _ IH]; [by repeat constructor|].
  change (strings.Split (sep :: s) sep) with ([] :: strings.Split s sep).
  by constructor.
Qed.

Lemma fold_cleanStep_all_empty (rooted : bool) (l stack : list gostring) :
  Forall (λ e, e = []) l → fold_left (filepath.cleanStep rooted) l stack = stack.
Proof.
  induction 1 as [|e l -> _ IH]; [done|]. simpl. by rewrite cleanStep_empty.
Qed.

(** A path of nothing but separators is the root, and so is its parent. *)
Lemma Dir_separators (s : gostring) :
  s ≠ [] → Forall (λ c, c = sep) s → filepath.Dir s = [sep].
Proof.
  intros Hne Hs.
  assert (filepath.dirPrefix s = s) as Hprefix.
  { unfold filepath.dirPrefix.
    assert (Forall (λ c, c = sep) (rev s)) as Hrev.
    { apply Forall_forall. intros c Hc%list_elem_of_In%in_rev%list_elem_of_In.
      by eapply Forall_forall in Hs. }
    destruct (rev s) as [|c r] eqn:Heq.
    { destruct Hne. by rewrite <- (rev_involutive s), Heq. }
    apply Forall_cons in Hrev as [-> _]. cbn [filepath.dropElem].
    rewrite Ascii.eqb_refl, <- Heq. apply rev_involutive. }
  unfold filepath.Dir. rewrite Hprefix.
  destruct s as [|c s]; [done|]. pose proof Hs as Hall.
  apply Forall_cons in Hs as [-> Hs]. rewrite IsAbs_Clean by done.
  unfold filepath.cleanElems.
  by rewrite fold_cleanStep_all_empty by by apply Split_separators.
Qed.

(** The last element of a path has no separator, unless the path is nothing
    but separators. *)
Lemma Base_plain (s : gostring) :
  sep ∉ filepath.Base s ∨ (s ≠ [] ∧ Forall (λ c, c = sep) s).
Proof.
  unfold filepath.Base. destruct s as [|c s]; [left; apply (bool_decide_unpack _); by vm_compute|].
  set (path := c :: s).
  destruct (filepath.lastElem (rev (filepath.dropSeparators (rev path)))) as [|x e] eqn:Hlast.
  - right. split; [done|].
    unfold filepath.lastElem in Hlast. rewrite rev_involutive in Hlast.
    assert (filepath.takeElem (filepath.dropSeparators (rev path)) = []) as Htake.
    { by rewrite <- (rev_involutive (filepath.takeElem _)), Hlast. }
    apply takeElem_dropSeparators, dropSeparators_nil in Htake.
    apply Forall_forall. intros y Hy%list_elem_of_In%in_rev%list_elem_of_In.
    by eapply Forall_forall in Htake.
  - left. rewrite <- Hlast. apply lastElem_plain.
Qed.

Lemma root_never_reachesMount : ¬ reachesMount [sep].
Proof.
  intros Hreach.
  by apply (reachesMount_clean []) in Hreach.
Qed.

Lemma Base_below_mount (s : gostring) :
  reachesMount (filepath.Dir s) → sep ∉ filepath.Base s.
Proof.
  intros Hreach. destruct (Base_plain s) as [|[Hne Hall]]; [done|].
  rewrite Dir_separators in Hreach by done. by apply root_never_reachesMount in Hreach.
Qed.

Lemma stamped_proper (t : Time) (rest : gostring) :
  sep ∉ rest → properName (Format200601021504 t ++ rest) = true.
Proof.
  intros Hrest. pose proof (Format_length t) as Hlen.
  apply properName_spec. repeat split.
  - intros Heq. apply (f_equal length) in Heq. rewrite length_app in Heq. simpl in Heq. lia.
  - intros Heq. apply (f_equal length) in Heq. rewrite length_app in Heq.
    change (length filepath.dot) with 1 in Heq. lia.
  - intros Heq. apply (f_equal length) in Heq. rewrite length_app in Heq.
    change (length filepath.dotdot) with 2 in Heq. lia.
  - apply not_elem_of_app. split; [apply Format_plain | done].
Qed.

Context {W : Type} `{!OS W}.

Lemma buildArchivePath_shape (fuel : nat) (path archived : gostring) (st : State W) :
  (buildArchivePath fuel path st).1 = Returns archived →
  ∃ rest, archived = archiveSubPath ++ ("/" : gostring)
                     ++ Format200601021504 (time_Now (world st)) ++ rest
          ∧ sep ∉ rest.
Proof.
  revert path archived. induction fuel as [|fuel IH]; intros path archived; [done|].
  rewrite buildArchivePath_S.
  destruct (decide (filepath.Clean path = filepath.Clean mountPath)) as [Hroot|Hroot].
  { unfold bind, Now, ret. cbn [fst]. intros [= <-]. exists [].
    rewrite app_nil_r. split; [done | apply not_elem_of_nil]. }
  unfold bind.
  destruct (buildArchivePath fuel (filepath.Dir path) st) as [[parent| |] st0] eqn:Hrec;
    cbn [fst ret]; [|done..].
  intros [= <-].
  destruct (IH (filepath.Dir path) parent) as (rest & -> & Hrest); [by rewrite Hrec|].
  assert (reachesMount (filepath.Dir path)) as Hreach.
  { apply (terminates_iff_reachesMount _ st). eexists fuel, _. by rewrite Hrec. }
  exists (rest ++ ("." : gostring) ++ filepath.Base path). split.
  - by rewrite <- !app_assoc.
  - rewrite !not_elem_of_app. split; [done|]. split; [|by apply Base_below_mount].
    apply (bool_decide_unpack _). by vm_compute.
Qed.

(** X15 ([buildArchivePath], [Delete]): every archive name that
    [buildArchivePath] returns is [_archived_/] followed by one path element
    that begins with the twelve digits of the time: so the directory that
    [Delete] renames to is always an entry of the archive directory itself,
    however deep the archived directory was. *)
Theorem buildArchivePath_flat (fuel : nat) (path archived : gostring) (st : State W) :
  (buildArchivePath fuel path st).1 = Returns archived →
  ∃ leaf,
    archived = archiveSubPath ++ ("/" : gostring) ++ leaf
    ∧ properName leaf = true
    ∧ take 12 leaf = Format200601021504 (time_Now (world st))
    ∧ filepath.Join [mountPath; archived]
      = ("/persistentvolumes/_archived_/" : gostring) ++ leaf
    ∧ filepath.Dir (filepath.Join [mountPath; archived])
      = filepath.Join [mountPath; archiveSubPath].
Proof.
  intros Hbuilt.
  destruct (buildArchivePath_shape _ _ _ _ Hbuilt) as (rest & -> & Hrest).
  pose proof (stamped_proper (time_Now (world st)) rest Hrest) as Hproper.
  exists (Format200601021504 (time_Now (world st)) ++ rest).
  split; [done|]. split; [done|]. split.
  { by rewrite take_app_length' by by rewrite Format_length. }
  rewrite Join_mount_archive by done. split; [done|].
  change (filepath.Clean mountPath ++ ("/" : gostring) ++ archiveSubPath
          ++ ("/" : gostring) ++ Format200601021504 (time_Now (world st)) ++ rest)
    with (sep :: strings.Join [mountName; archiveSubPath] [sep]
          ++ sep :: (Format200601021504 (time_Now (world st)) ++ rest)).
  unfold filepath.Dir.
  rewrite app_comm_cons, dirPrefix_snoc by by apply properName_plain.
  rewrite IsAbs_Clean by done. rewrite cleanElems_trailing.
  by rewrite cleanElems_absolute by by repeat constructor.
Qed.

End ArchiveNames.

(** ** Relative paths *)

Section RelativePaths.

Local Abbreviation sep := filepath.Separator.
Local Abbreviation named := (λ e : gostring, e ≠ [] ∧ sep ∉ e).

Lemma cleanStep_named (rooted : bool) (stack : list gostring) (e : gostring) :
  sep ∉ e → Forall named stack → Forall named (filepath.cleanStep rooted stack e).
Proof.
  intros He Hstack. unfold filepath.cleanStep.
  destruct (decide (e = [])); [done|].
  destruct (decide (e = filepath.dot)); [done|].
  destruct (decide (e = filepath.dotdot)).
  - destruct stack as [|top below].
    + destruct rooted; [done|]. by repeat constructor.
    + destruct (decide (top = filepath.dotdot)); [by constructor|].
      by apply Forall_cons in Hstack as [_ ?].
  - by constructor.
Qed.

Lemma fold_cleanStep_named (rooted : bool) (l stack : list gostring) :
  Forall (λ e, sep ∉ e) l → Forall named stack →
  Forall named (fold_left (filepath.cleanStep rooted) l stack).
Proof.
  intros Hl. revert stack. induction Hl as [|e l He _ IH]; intros stack Hstack; [done|].
  simpl. by apply IH, cleanStep_named.
Qed.

Lemma cleanElems_named (rooted : bool) (s : gostring) :
  Forall named (filepath.cleanElems rooted s).
Proof.
  unfold filepath.cleanElems. apply Forall_forall.
  intros e He%list_elem_of_In%in_rev%list_elem_of_In. revert e He. apply Forall_forall.
  apply fold_cleanStep_named; [|done].
  apply Forall_forall. intros e He. by eapply Split_elem_plain.
Qed.

Lemma Clean_relative (s : gostring) :
  filepath.IsAbs s = false → filepath.IsAbs (filepath.Clean s) = false.
Proof.
  intros Hrel. unfold filepath.Clean. destruct s as [|c s]; [done|]. rewrite Hrel.
  pose proof (cleanElems_named false (c :: s)) as Hnamed.
  destruct (filepath.cleanElems false (c :: s)) as [|e rest]; [done|].
  apply Forall_cons in Hnamed as [[Hne Hplain] _].
  destruct e as [|x e]; [done|]. apply not_elem_of_cons in Hplain as [Hx _].
  assert (filepath.IsAbs (x :: e) = false) as Hx'.
  { cbn [filepath.IsAbs]. by destruct (Ascii.eqb_spec x sep). }
  by destruct rest.
Qed.

Lemma dirPrefix_relative (s : gostring) :
  filepath.IsAbs s = false → filepath.IsAbs (filepath.dirPrefix s) = false.
Proof.
  intros Hrel. pose proof (path_decompose s) as Hs.
  destruct (filepath.dirPrefix s) as [|c pre]; [done|].
  rewrite Hs in Hrel. done.
Qed.

Lemma Dir_relative (s : gostring) :
  filepath.IsAbs s = false → filepath.IsAbs (filepath.Dir s) = false.
Proof. intros Hrel. by apply Clean_relative, dirPrefix_relative. Qed.

Lemma relative_not_mount (s : gostring) :
  filepath.IsAbs s = false → filepath.Clean s ≠ filepath.Clean mountPath.
Proof.
  intros Hrel%Clean_relative Heq. by rewrite Heq in Hrel.
Qed.

Lemma relative_never_reachesMount (s : gostring) :
  filepath.IsAbs s = false → ¬ reachesMount s.
Proof.
  intros Hrel [n Hn].
  assert (filepath.IsAbs (Nat.iter n filepath.Dir s) = false) as Hiter.
  { clear Hn. induction n as [|n IH]; [done|]. simpl. by apply Dir_relative. }
  by apply relative_not_mount in Hiter.
Qed.

Context {W : Type} `{!OS W}.

Lemma Pruned_relative (w w' : W) (path : gostring) (cs : list Call) (r : Result unit) :
  Pruned w path cs w' r → filepath.IsAbs path = false → r = Returns tt →
  ∃ name err, last cs = Some (CallRemove name (Some err)).
Proof.
  induction 1 as [w path Hroot|w path|w path err w' Hroot Hrm
                  |w path w' cs w'' r Hroot Hrm Hwalk IH]; intros Hrel Hret.
  - by apply relative_not_mount in Hrel.
  - done.
  - by eexists _, _.
  - destruct (IH (Dir_relative _ Hrel) Hret) as (name & err & Hlast).
    exists name, err. destruct cs; [done|]. done.
Qed.

(** X16 ([pruneEmptyParents], [buildArchivePath]): a path that is not
    absolute never comes to the mount root, since its parents stay relative.
    The recursion of [buildArchivePath] from it does not end, and a pruning
    walk from it stops only at a removal that fails. *)
Theorem relative_path_walks (path : gostring) (st : State W) :
  filepath.IsAbs path = false →
  (∀ fuel, (buildArchivePath fuel path st).1 = OutOfFuel)
  ∧ (∀ fuel, (pruneEmptyParents fuel path st).1 = Returns tt →
       ∃ name err,
         last (calls (pruneEmptyParents fuel path st).2)
         = Some (CallRemove name (Some err)))
  ∧ (∀ fuel, (pruneEmptyParents fuel path st).1 = Returns tt
             ∨ (pruneEmptyParents fuel path st).1 = OutOfFuel).
Proof.
  intros Hrel. split; [|split].
  - apply buildArchivePath_never. by apply relative_never_reachesMount.
  - intros fuel Hret.
    destruct (pruneEmptyParents_Pruned fuel path st) as (cs & Hcalls & Hwalk).
    destruct (Pruned_relative _ _ _ _ _ Hwalk Hrel Hret) as (name & err & Hlast).
    exists name, err. rewrite Hcalls.
    destruct cs as [|c cs] using rev_ind; [done|].
    rewrite app_assoc, last_snoc. by rewrite last_snoc in Hlast.
  - intros fuel.
    destruct (pruneEmptyParents_Pruned fuel path st) as (cs & _ & Hwalk).
    by eapply Pruned_no_panic.
Qed.

End RelativePaths.

(** ** [Provision] and [Delete] on the file system in memory *)

Section MemFSFacts.

Local Abbreviation sep := filepath.Separator.
Local Abbreviation proper := (λ e, properName e = true).

Implicit Types m : gmap MemFS.Key MemFS.Node.
Implicit Types base todo names key k : MemFS.Key.


















End MemFSFacts.

Section MemFSRoundTrip.

Local Abbreviation sep := filepath.Separator.
Local Abbreviation proper := (λ e, properName e = true).





End MemFSRoundTrip.

(** ** What [Provision] and [Delete] do to the file system *)

Section Effects.

Context {W : Type} `{!OS W}.

(** X18 ([Provision]): [Provision] makes at most two calls, [os.MkdirAll]
    and then [os.Chmod], both with mode 0777 on the mount root joined with
    the relative path; it removes and renames nothing. It always comes
    back; it panics exactly when the class has no reclaim policy, and then
    only after the directory has been created and its mode set. *)
Theorem Provision_effects (p : nfsProvisioner) (options : ProvisionOptions) (st : State W) :
  let out := Provision p options st in
  let fullPath := filepath.Join [mountPath; relativePath options] in
  let made := os_MkdirAll fullPath mode0777 (world st) in
  (∃ cs, calls out.2 = calls st ++ cs
         ∧ cs `prefix_of` [ CallMkdirAll fullPath mode0777 made.1;
                            CallChmod fullPath mode0777
                              (os_Chmod fullPath mode0777 made.2).1 ]
         ∧ (out.1 = Panics → length cs = 2))
  ∧ out.1 ≠ OutOfFuel
  ∧ (out.1 = Panics
     ↔ Selector (PVC options) = None
       ∧ ReclaimPolicy (OptStorageClass options) = None
       ∧ made.1 = None
       ∧ (os_Chmod fullPath mode0777 made.2).1 = None).
Proof.
  cbn zeta. destruct (Selector (PVC options)) as [selector|] eqn:Hsel.
  { unfold Provision. rewrite Hsel. cbn [ret fst snd].
    split; [|split; [done|]].
    - exists []. rewrite app_nil_r. split; [done|]. split; [apply prefix_nil | done].
    - split; [done | by intros [? _]]. }
  rewrite Provision_run by done.
  set (fullPath := filepath.Join [mountPath; relativePath options]).
  unfold bind, MkdirAll, Chmod, record, ret, panic.
  destruct (os_MkdirAll fullPath mode0777 (world st)) as [[e|] w1];
    cbn [fst snd world calls].
  { split; [|split; [done|]].
    - eexists. split; [done|]. split; [|done]. by eexists [_].
    - split; [done | by intros (_ & _ & ? & _)]. }
  destruct (os_Chmod fullPath mode0777 w1) as [[e|] w2]; cbn [fst snd world calls].
  { split; [|split; [done|]].
    - eexists. rewrite <- app_assoc. split; [done|]. split; [|done]. by exists [].
    - split; [done | by intros (_ & _ & _ & ?)]. }
  destruct (ReclaimPolicy (OptStorageClass options)) as [policy|];
    cbn [fst snd world calls].
  - split; [|split; [done|]].
    + eexists. rewrite <- app_assoc. split; [done|]. split; [|done]. by exists [].
    + split; [done | by intros (_ & ? & _)].
  - split; [|split; [done|]].
    + eexists. rewrite <- app_assoc. split; [done|]. split; [|done]. by exists [].
    + done.
Qed.

(** The removals of a pruning walk are of the path, its parent, the parent
    of that, and so on. *)
Lemma Pruned_ancestors (w w' : W) (path : gostring) (cs : list Call) (r : Result unit) :
  Pruned w path cs w' r →
  Forall (λ c, ∃ n err, c = CallRemove (Nat.iter n filepath.Dir path) err) cs.
Proof.
  induction 1 as [| | |w path w' cs w'' r Hroot Hrm Hwalk IH].
  - done.
  - done.
  - constructor; [|done]. by exists 0, (Some err).
  - constructor; [by exists 0, None|].
    eapply Forall_impl; [done|]. intros c (n & err & ->).
    exists (S n), err. by rewrite Nat.iter_succ_r.
Qed.

Lemma pruneEmptyParents_kinds (fuel : nat) (oldPath : gostring) (st : State W) :
  ∃ cs, calls (pruneEmptyParents fuel (filepath.Dir oldPath) st).2 = calls st ++ cs
        ∧ Forall (deleteCall oldPath) cs
        ∧ (pruneEmptyParents fuel (filepath.Dir oldPath) st).1 ≠ Panics.
Proof.
  destruct (pruneEmptyParents_Pruned fuel (filepath.Dir oldPath) st) as (cs & Hcs & Hwalk).
  exists cs. split; [done|]. split.
  - eapply Forall_impl; [by eapply Pruned_ancestors|].
    intros c (n & err & ->). exists n. by rewrite Nat.iter_succ_r.
  - by destruct (Pruned_no_panic _ _ _ _ _ Hwalk) as [-> | ->].
Qed.

Lemma deleteAndPruneEmptyParents_kinds (fuel : nat) (oldPath : gostring) (st : State W) :
  ∃ cs, calls (deleteAndPruneEmptyParents fuel oldPath st).2 = calls st ++ cs
        ∧ Forall (deleteCall oldPath) cs
        ∧ (deleteAndPruneEmptyParents fuel oldPath st).1 ≠ Panics.
Proof.
  unfold deleteAndPruneEmptyParents, bind, RemoveAll, record, ret.
  destruct (os_RemoveAll oldPath (world st)) as [[err|] w']; cbn [fst snd].
  { eexists [_]. split; [done|]. split; [|done]. by repeat constructor. }
  match goal with |- context [pruneEmptyParents fuel _ ?s] =>
    destruct (pruneEmptyParents_kinds fuel oldPath s) as (cs & Hcs & Hkinds & Hpanic);
    destruct (pruneEmptyParents fuel (filepath.Dir oldPath) s) as [r st'] end.
  cbn [fst snd calls] in *. exists (CallRemoveAll oldPath None :: cs).
  split; [|split].
  - destruct r; cbn [snd]; by rewrite Hcs, <- app_assoc.
  - by constructor.
  - by destruct r.
Qed.

Lemma archive_kinds (fuel : nat) (oldPath : gostring) (st : State W) :
  ∃ cs, calls (archive fuel oldPath st).2 = calls st ++ cs
        ∧ Forall (deleteCall oldPath) cs
        ∧ (archive fuel oldPath st).1 ≠ Panics.
Proof.
  pose proof (buildArchivePath_state fuel oldPath st) as Hst.
  pose proof (buildArchivePath_no_panic fuel oldPath st) as Hbuild.
  unfold archive, bind, Stat, MkdirAll, Rename, record, ret.
  destruct (buildArchivePath fuel oldPath st) as [[archived| |] st0];
    cbn [fst snd] in *; subst st0;
    [| done | exists []; rewrite app_nil_r; by repeat split].
  set (archiveDir := filepath.Join [mountPath; archiveSubPath]).
  set (target := filepath.Join [mountPath; archived]).
  assert (∀ w1 made,
    Forall (deleteCall oldPath) made →
    let st1 := {| world := w1; calls := calls st ++ made |} in
    ∃ cs, calls (match (os_Rename oldPath target w1).1 with
                 | Some err =>
                     (Returns (Some err),
                      {| world := (os_Rename oldPath target w1).2;
                         calls := calls st1
                                  ++ [CallRename oldPath target
                                        (os_Rename oldPath target w1).1] |})
                 | None =>
                     let (r, st') :=
                       pruneEmptyParents fuel (filepath.Dir oldPath)
                         {| world := (os_Rename oldPath target w1).2;
                            calls := calls st1
                                     ++ [CallRename oldPath target
                                           (os_Rename oldPath target w1).1] |} in
                     match r with
                     | Returns _ => (Returns None, st')
                     | Panics => (Panics, st')
                     | OutOfFuel => (OutOfFuel, st')
                     end
                 end).2 = calls st ++ cs
          ∧ Forall (deleteCall oldPath) cs
          ∧ (match (os_Rename oldPath target w1).1 with
             | Some err =>
                 (Returns (Some err),
                  {| world := (os_Rename oldPath target w1).2;
                     calls := calls st1
                              ++ [CallRename oldPath target
                                    (os_Rename oldPath target w1).1] |})
             | None =>
                 let (r, st') :=
                   pruneEmptyParents fuel (filepath.Dir oldPath)
                     {| world := (os_Rename oldPath target w1).2;
                        calls := calls st1
                                 ++ [CallRename oldPath target
                                       (os_Rename oldPath target w1).1] |} in
                 match r with
                 | Returns _ => (Returns None, st')
                 | Panics => (Panics, st')
                 | OutOfFuel => (OutOfFuel, st')
                 end
             end).1 ≠ Panics) as Hrest.
  { intros w1 made Hmade. cbn zeta. cbn [calls].
    destruct (os_Rename oldPath target w1) as [[err|] w2]; cbn [fst snd].
    - exists (made ++ [CallRename oldPath target (Some err)]).
      rewrite <- app_assoc. split; [done|]. split; [|done].
      apply Forall_app. split; [done|]. by repeat constructor.
    - match goal with |- context [pruneEmptyParents fuel _ ?s] =>
        destruct (pruneEmptyParents_kinds fuel oldPath s) as (cs & Hcs & Hkinds & Hpanic);
        destruct (pruneEmptyParents fuel (filepath.Dir oldPath) s) as [r st'] end.
      cbn [fst snd calls] in *. exists (made ++ CallRename oldPath target None :: cs).
      split; [|split].
      + destruct r; cbn [snd]; rewrite Hcs, <- !app_assoc; done.
      + apply Forall_app. split; [done|]. by constructor.
      + by destruct r. }
  cbn [world calls].
  destruct (IsNotExist (os_Stat archiveDir (world st))); cbn [fst snd world calls].
  - destruct (os_MkdirAll archiveDir mode0755 (world st)) as [e1 w1]; cbn [fst snd].
    destruct (Hrest w1 [CallStat archiveDir (os_Stat archiveDir (world st));
                        CallMkdirAll archiveDir mode0755 e1])
      as (cs & Hcs & Hkinds & Hpanic); [by repeat constructor|].
    exists cs. cbn [calls] in Hcs, Hpanic.
    rewrite <- !app_assoc in *. cbn [app] in *.
    by destruct (os_Rename oldPath target w1) as [[?|] ?].
  - destruct (Hrest (world st) [CallStat archiveDir (os_Stat archiveDir (world st))])
      as (cs & Hcs & Hkinds & Hpanic); [by repeat constructor|].
    exists cs. cbn [calls] in Hcs, Hpanic.
    by destruct (os_Rename oldPath target (world st)) as [[?|] ?].
Qed.

(** X19 ([Delete]): [Delete] panics exactly when the volume has no NFS
    source, and then before any call. Otherwise its first call is the check
    of the local path, and whatever it calls after that is the removal of
    that path, the removal of one of its ancestors, the check or the
    creation of the archive directory, or a rename of that path; it never
    changes a mode and never creates anything but the archive directory. *)
Theorem Delete_effects (fuel : nat) (p : nfsProvisioner) (volume : PersistentVolume)
    (st : State W) :
  ((Delete fuel p volume st).1 = Panics ↔ NFS volume = None)
  ∧ (NFS volume = None → (Delete fuel p volume st).2 = st)
  ∧ (∀ nfs, NFS volume = Some nfs →
       let oldPath := strings.Replace1 (Path nfs) (path p) mountPath in
       ∃ cs, calls (Delete fuel p volume st).2
             = calls st ++ CallStat oldPath (os_Stat oldPath (world st)) :: cs
             ∧ Forall (deleteCall oldPath) cs).
Proof.
  unfold Delete. destruct (NFS volume) as [nfs|]; [|done].
  set (oldPath := strings.Replace1 (Path nfs) (path p) mountPath).
  unfold bind at 1 2 3, Stat, record. cbn [fst snd].
  set (st1 := {| world := world st;
                 calls := calls st ++ [CallStat oldPath (os_Stat oldPath (world st))] |}).
  assert (∀ out : Result (option error) * State W,
            (∃ cs, calls out.2 = calls st1 ++ cs ∧ Forall (deleteCall oldPath) cs
                   ∧ out.1 ≠ Panics) →
            (out.1 = Panics ↔ Some nfs = None)
            ∧ (Some nfs = None → out.2 = st)
            ∧ ∀ nfs', Some nfs = Some nfs' →
                let oldPath' := strings.Replace1 (Path nfs') (path p) mountPath in
                ∃ cs, calls out.2
                      = calls st ++ CallStat oldPath' (os_Stat oldPath' (world st)) :: cs
                      ∧ Forall (deleteCall oldPath') cs) as Hwrap.
  { intros out (cs & Hcs & Hkinds & Hpanic). split; [done|]. split; [done|].
    intros ? [= <-]. exists cs. cbn [st1 calls] in Hcs.
    by rewrite <- app_assoc in Hcs. }
  assert (∀ r : option error,
            ∃ cs, calls (@ret W _ r st1).2 = calls st1 ++ cs
                  ∧ Forall (deleteCall oldPath) cs
                  ∧ (@ret W _ r st1).1 ≠ Panics) as Hret.
  { intros r. exists []. by rewrite app_nil_r. }
  apply Hwrap.
  destruct (IsNotExist _); [apply Hret|].
  destruct (getClassForVolume p volume) as [err|class]; [apply Hret|].
  destruct (decide _); [apply deleteAndPruneEmptyParents_kinds|].
  destruct (decide _); [apply Hret|].
  destruct (Parameters class !! _) as [value|]; [|apply archive_kinds].
  destruct (strconv.ParseBool value) as [[] [err|]];
    first [apply Hret | apply archive_kinds | apply deleteAndPruneEmptyParents_kinds].
Qed.

End Effects.

(** ** A volume whose exported path is the export root *)

Section ExportRoot.

Local Abbreviation sep := filepath.Separator.

Lemma Replace1_whole (s new : gostring) : strings.Replace1 s s new = new.
Proof.
  rewrite Replace1_eq, (proj2 (HasPrefix_spec s s)) by (exists []; by rewrite app_nil_r).
  by rewrite drop_all, app_nil_r.
Qed.

Lemma cleanElems_dot (s : gostring) :
  filepath.cleanElems true (s ++ sep :: filepath.dot) = filepath.cleanElems true s.
Proof. unfold filepath.cleanElems. by rewrite Split_app, fold_left_app. Qed.

(** X20 ([Delete], [deleteAndPruneEmptyParents], [Provision]): when the
    exported path of a volume is the export path itself, the local path is
    the mount path, and under [onDelete: delete] what [Delete] removes is
    the mount root with everything below it; its parent is the mount root
    again, so the pruning walk stops at once. On the file system in memory
    nothing is left at or below the mount root, whatever was there.
    [Provision] makes such a volume when the relative path is [.]. *)
Theorem Delete_export_root (fuel : nat) (p : nfsProvisioner) (volume : PersistentVolume)
    (nfs : NFSVolumeSource) (class : StorageClass) :
  NFS volume = Some nfs → Path nfs = path p →
  getClassForVolume p volume = inr class →
  index (Parameters class) "onDelete" = ("delete" : gostring) →
  1 ≤ fuel →
  (∀ (W : Type) (os : OS W) (st : State W),
     IsNotExist (os_Stat mountPath (world st)) = false →
     let removed := os_RemoveAll mountPath (world st) in
     Delete fuel p volume st
     = (Returns removed.1,
        {| world := removed.2;
           calls := calls st ++ [ CallStat mountPath (os_Stat mountPath (world st));
                                  CallRemoveAll mountPath removed.1 ] |}))
  ∧ (∀ w : MemFS.World,
       is_Some (MemFS.nodes w !! [mountName]) →
       let out := Delete fuel p volume (MemFS.start w) in
       out.1 = Returns None
       ∧ ∀ k, [mountName] `prefix_of` k → MemFS.nodes (world out.2) !! k = None)
  ∧ (∀ root, Forall (λ e, properName e = true) root →
       path p = sep :: strings.Join root [sep] →
       filepath.Join [path p; filepath.dot] = path p).
Proof.
  intros Hnfs Hpath Hclass HonDelete Hfuel.
  assert (∀ (W : Type) (os : OS W) (st : State W),
            IsNotExist (os_Stat mountPath (world st)) = false →
            Delete fuel p volume st
            = (Returns (os_RemoveAll mountPath (world st)).1,
               {| world := (os_RemoveAll mountPath (world st)).2;
                  calls := calls st
                           ++ [ CallStat mountPath (os_Stat mountPath (world st));
                                CallRemoveAll mountPath
                                  (os_RemoveAll mountPath (world st)).1 ] |}))
    as Hgeneral.
  { intros W os st Hstat. unfold Delete. rewrite Hnfs, Hpath, Replace1_whole.
    unfold bind, Stat, record. cbn [fst snd world calls].
    rewrite Hstat, Hclass, HonDelete, decide_True by done.
    unfold deleteAndPruneEmptyParents, bind, RemoveAll, record.
    cbn [fst snd world calls].
    destruct (os_RemoveAll mountPath (world st)) as [[err|] w']; cbn [fst snd ret].
    { by rewrite <- app_assoc. }
    destruct fuel as [|fuel]; [lia|]. rewrite pruneEmptyParents_S.
    rewrite decide_True by done. unfold ret. by rewrite <- app_assoc. }
  split; [exact Hgeneral|]. split.
  - intros w [mount Hmount]. cbn zeta.
    assert (MemFS.Stat mountPath w = None) as Hstat.
    { unfold MemFS.Stat. rewrite decide_False by done.
      change (MemFS.resolve mountPath) with [mountName].
      cbn [MemFS.getNode]. by rewrite Hmount. }
    rewrite Hgeneral by (cbn [os_Stat MemFS.MemOS MemFS.start world]; by rewrite Hstat).
    cbn [fst snd world os_RemoveAll MemFS.MemOS MemFS.start].
    unfold MemFS.RemoveAll. rewrite decide_False by done.
    change (MemFS.endsWithDot mountPath) with false.
    change (MemFS.resolve mountPath) with [mountName].
    cbn [MemFS.fileAbove MemFS.getNode MemFS.rootNode app fst snd MemFS.setNodes MemFS.nodes].
    split; [done|]. intros k Hk. apply map_lookup_filter_None.
    destruct (MemFS.nodes w !! k); [right|by left]. intros ? _ Hnot. by apply Hnot.
  - intros root Hroot Hclean. unfold filepath.Join.
    rewrite decide_False by by rewrite Hclean.
    change (strings.Join [path p; filepath.dot] [sep]) with (path p ++ sep :: filepath.dot).
    rewrite IsAbs_Clean by by rewrite Hclean.
    by rewrite cleanElems_dot, Hclean, cleanElems_absolute.
Qed.

End ExportRoot.

(** * The further properties at sample inputs *)

Lemma main_runs_iff_witness :
  main Examples.process
  = Runs "example.com/nfs"
      {| client := Some (λ _, inr (Examples.classWith ∅));
         server := "10.0.0.1"; path := "/export" |}.
Proof.
  apply (proj2 (main_runs_iff Examples.process _ _)).
  repeat split; try done. exists tt. eexists. repeat split.
Defined.

Lemma main_exits_witness :
  main {| flag_Parse := None; Getenv := Getenv Examples.bareProcess;
          BuildConfigFromFlags := λ _ _, inr tt; InClusterConfig := inr tt;
          NewForConfig := λ _ : unit, inr (λ _, inr (Examples.classWith ∅)) |}
  = Exits 1 "NFS_SERVER not set".
Proof.
  apply (proj2 (proj2 (main_exits Examples.bareProcess))); reflexivity.
Defined.

Lemma main_one_config_source_witness :
  main {| flag_Parse := flag_Parse Examples.process; Getenv := Getenv Examples.process;
          BuildConfigFromFlags := λ _ _, inr tt;
          InClusterConfig := InClusterConfig Examples.process;
          NewForConfig := NewForConfig Examples.process |}
  = main Examples.process.
Proof.
  apply (proj2 (main_one_config_source Examples.process)). reflexivity.
Defined.

Lemma main_getClassForVolume_witness :
  ∃ clientset,
    client {| client := Some (λ _, inr (Examples.classWith ∅));
              server := "10.0.0.1"; path := "/export" |} = Some clientset
    ∧ getClassForVolume
        {| client := Some (λ _, inr (Examples.classWith ∅));
           server := "10.0.0.1"; path := "/export" |}
        (Examples.volumeAt "/export/ns1-claim1-pvc-abc")
      = clientset "nfs-client".
Proof.
  destruct (main_getClassForVolume Examples.process "example.com/nfs"
              {| client := Some (λ _, inr (Examples.classWith ∅));
                 server := "10.0.0.1"; path := "/export" |}
              (Examples.volumeAt "/export/ns1-claim1-pvc-abc") eq_refl)
    as (clientset & Hclient & _ & Hnamed).
  exists clientset. split; [exact Hclient|]. apply Hnamed. by vm_compute.
Defined.

Lemma Delete_class_lookup_failure_witness :
  let p := {| client := None; server := "10.0.0.1"; path := "/export" |} in
  let volume := Examples.volumeAt "/export/ns1-claim1-pvc-abc" in
  let st := MemFS.start (Examples.exportWith [ "/persistentvolumes/ns1-claim1-pvc-abc" : gostring ]) in
  (Delete 0 p volume st).1 = Returns (Some (errorString "cannot get kube client"))
  ∧ world (Delete 0 p volume st).2 = world st.
Proof.
  intros p volume st.
  destruct (Delete_class_lookup_failure 0 p volume _ (errorString "cannot get kube client")
              st eq_refl) as [Hout Hworld].
  - vm_compute. reflexivity.
  - reflexivity.
  - split; [by rewrite Hout | exact Hworld].
Defined.

Lemma getClassForVolume_cases_witness :
  getClassForVolume {| client := None; server := "10.0.0.1"; path := "/export" |}
    (Examples.volumeAt "/export/ns1-claim1-pvc-abc")
  = inl (errorString "cannot get kube client")
  ∧ getClassForVolume (Examples.provisionerWith ∅)
      (volumeFor (Examples.provisionerWith ∅) (Examples.request ∅) "Delete"
         "/export/ns1-claim1-pvc-abc")
    = inl (errorString "volume has no storage class").
Proof.
  split.
  - apply (getClassForVolume_cases _ _). reflexivity.
  - apply (getClassForVolume_cases (Examples.provisionerWith ∅)
             (Examples.volumeAt "/export/ns1-claim1-pvc-abc")).
    by eexists.
Defined.

Lemma deleteAndPruneEmptyParents_outcome_witness :
  let st := MemFS.start (Examples.exportWith [ "/persistentvolumes/team" : gostring;
                                               "/persistentvolumes/team/a" : gostring ]) in
  let out := deleteAndPruneEmptyParents 3 "/persistentvolumes/team/a" st in
  out.1 = Returns None
  ∧ ∃ pruned, calls out.2 = CallRemoveAll "/persistentvolumes/team/a" None :: pruned
              ∧ Forall (λ c, ∃ name err, c = CallRemove name err) pruned.
Proof.
  intros st out.
  destruct (deleteAndPruneEmptyParents_outcome 3 ("/persistentvolumes/team/a" : gostring) st)
    as (pruned & Hcalls & Hpruned & _ & _ & Hret).
  split.
  - assert (out.1 = Returns None) as Hout by (vm_compute; reflexivity).
    rewrite (Hret None Hout). exact Hout.
  - exists pruned. split; [exact Hcalls | exact Hpruned].
Defined.


Lemma archive_never_witness :
  archive 1000 "/scratch/a" (MemFS.start Examples.emptyExport)
  = (OutOfFuel, MemFS.start Examples.emptyExport).
Proof.
  apply (archive_never ("/scratch/a" : gostring) (MemFS.start Examples.emptyExport)).
  intros Hreach.
  apply (reachesMount_clean [ "scratch" : gostring; "a" : gostring ]) in Hreach.
  - discriminate Hreach.
  - repeat constructor.
Defined.

Lemma stringParser_no_placeholder_witness :
  stringParser (metadataOf (Examples.request ∅)) "static/{name}" = "static/{name}".
Proof.
  apply (stringParser_no_placeholder (metadataOf (Examples.request ∅)) "static/{name}").
  left. reflexivity.
Defined.


Lemma Provision_pattern_witness :
  let options :=
    Examples.request {[ ("pathPattern" : gostring)
                        := ("${.PVC.namespace}/${.PVC.name}" : gostring) ]} in
  relativePath options = "ns1/claim1"
  ∧ ∃ err cs,
      calls (Provision (Examples.provisionerWith ∅) options
               (MemFS.start Examples.emptyExport)).2
      = CallMkdirAll "/persistentvolumes/ns1/claim1" mode0777 err :: cs.
Proof.
  intros options.
  destruct (Provision_pattern (Examples.provisionerWith ∅) options
              [ Placeholder "namespace"; Literal "/"; Placeholder "name" ]
              (MemFS.start Examples.emptyExport))
    as (Hrel & Hcalls & _).
  - reflexivity.
  - vm_compute. reflexivity.
  - repeat constructor.
  - repeat constructor.
  - split; [exact Hrel | exact Hcalls].
Defined.

Lemma Delete_finds_provisioned_directory_witness :
  let p := Examples.provisionerWith ∅ in
  let st := MemFS.start Examples.emptyExport in
  ∃ oldPath cs,
    calls (Delete 0 p (Examples.volumeAt "/export/ns1-claim1-pvc-abc") st).2
    = CallStat oldPath (os_Stat oldPath (world st)) :: cs
    ∧ filepath.Clean oldPath = "/persistentvolumes/ns1-claim1-pvc-abc"
    ∧ belowMount oldPath = true.
Proof.
  intros p st.
  destruct (Delete_finds_provisioned_directory p (Examples.request ∅)
              [ "export" : gostring ] [ "ns1-claim1-pvc-abc" : gostring ]
              (volumeFor p (Examples.request ∅) "Delete" "/export/ns1-claim1-pvc-abc")
              (Examples.volumeAt "/export/ns1-claim1-pvc-abc")
              ProvisioningFinished None 0 st st)
    as (oldPath & cs & _ & _ & Hcalls & Hclean & _ & Hbelow).
  - reflexivity.
  - repeat constructor.
  - reflexivity.
  - discriminate.
  - repeat constructor.
  - vm_compute. reflexivity.
  - reflexivity.
  - exists oldPath, cs. split; [exact Hcalls|]. split; [exact Hclean | exact Hbelow].
Defined.

Lemma Delete_unclean_export_path_witness :
  let p := {| client := None; server := "10.0.0.1"; path := "/export//data" |} in
  filepath.Join [path p; ("x" : gostring)] = "/export/data/x"
  ∧ strings.Replace1 (filepath.Join [path p; ("x" : gostring)]) (path p) mountPath
    = filepath.Join [path p; ("x" : gostring)].
Proof.
  intros p. split; [reflexivity|].
  apply (Delete_unclean_export_path (W := MemFS.World) p "x" "/export" "data");
    reflexivity.
Defined.

Lemma buildArchivePath_flat_witness :
  let st := MemFS.start Examples.emptyExport in
  ∃ leaf,
    ("_archived_/202405011030.team.a" : gostring)
    = archiveSubPath ++ ("/" : gostring) ++ leaf
    ∧ properName leaf = true
    ∧ filepath.Join [mountPath; ("_archived_/202405011030.team.a" : gostring)]
      = ("/persistentvolumes/_archived_/" : gostring) ++ leaf.
Proof.
  intros st.
  destruct (buildArchivePath_flat 3 ("/persistentvolumes/team/a" : gostring)
              ("_archived_/202405011030.team.a" : gostring) st)
    as (leaf & Hleaf & Hproper & _ & Hjoin & _).
  - vm_compute. reflexivity.
  - exists leaf. split; [exact Hleaf|]. split; [exact Hproper | exact Hjoin].
Defined.

Lemma relative_path_walks_witness :
  (buildArchivePath 1000 "export/ns1-claim1-pvc-abc"
     (MemFS.start Examples.emptyExport)).1 = OutOfFuel.
Proof.
  destruct (relative_path_walks ("export/ns1-claim1-pvc-abc" : gostring)
              (MemFS.start Examples.emptyExport)) as (Hnever & _).
  - reflexivity.
  - apply Hnever.
Defined.


Lemma Provision_effects_witness :
  (Provision (Examples.provisionerWith ∅) (Examples.request ∅)
     (MemFS.start Examples.emptyExport)).1 ≠ OutOfFuel.
Proof.
  destruct (Provision_effects (Examples.provisionerWith ∅) (Examples.request ∅)
              (MemFS.start Examples.emptyExport)) as (_ & Htotal & _).
  exact Htotal.
Defined.

Lemma Delete_effects_witness :
  let volume := {|
    VolumeName := "pvc-abc"; VolumeAnnotations := ∅;
    PersistentVolumeReclaimPolicy := "Delete"; AccessModes := []; MountOptions := [];
    Capacity := ∅; NFS := None; StorageClassName := "nfs-client" |} in
  Delete 0 (Examples.provisionerWith ∅) volume (MemFS.start Examples.emptyExport)
  = (Panics, MemFS.start Examples.emptyExport).
Proof.
  intros volume.
  destruct (Delete_effects 0 (Examples.provisionerWith ∅) volume
              (MemFS.start Examples.emptyExport)) as (Hpanic & Hstate & _).
  apply injective_projections; [apply Hpanic | apply Hstate]; reflexivity.
Defined.

Lemma Delete_export_root_witness :
  let parameters : stringMap :=
    {[ ("onDelete" : gostring) := ("delete" : gostring);
       ("pathPattern" : gostring) := ("." : gostring) ]} in
  let p := Examples.provisionerWith parameters in
  let w := Examples.exportWith [ "/persistentvolumes/other" : gostring ] in
  let provisioned := Provision p (Examples.request parameters) (MemFS.start w) in
  provisioned.1
  = Returns (Some (volumeFor p (Examples.request parameters) "Delete" "/export"),
             ProvisioningFinished, None)
  ∧ (Delete 1 p (Examples.volumeAt "/export") (MemFS.start w)).1 = Returns None
  ∧ MemFS.nodes (world (Delete 1 p (Examples.volumeAt "/export") (MemFS.start w)).2)
    !! MemFS.resolve "/persistentvolumes/other" = None.
Proof.
  intros parameters p w provisioned.
  split; [vm_compute; reflexivity|].
  destruct (Delete_export_root 1 p (Examples.volumeAt "/export") _
              (Examples.classWith parameters) eq_refl) as (_ & Hmem & _).
  - reflexivity.
  - reflexivity.
  - vm_compute. reflexivity.
  - lia.
  - destruct (Hmem w) as [Hret Hgone].
    + vm_compute. eauto.
    + split; [exact Hret|]. apply Hgone. by exists [ "other" : gostring ].
Defined.
